(** * Book generator: generation resolver and book synthesizer

    Shallow embedding of [frontend/src/lib/book-generator.ts].  JavaScript
    numbers that the code uses as integers (years, generations, indices) are
    [Z]; strings are [string] (byte strings, so the Vietnamese literals are
    their UTF-8 encodings); a [Map] keyed by handle is a [gmap string _], the
    [Set] of child handles a [gset string]; arrays are lists.  An optional
    field ([birthYear?: number]) is an [option]. *)

From Stdlib Require Import Ascii.
From stdpp Require Import gmap strings list fin_maps pretty sorting.

Local Open Scope Z_scope.

(** ** Input records *)

(** Modelled from the spec: the declaration of [TreeNode] lives in
    [./tree-layout], which is not part of the sources at hand.  The fields are
    those the generator reads: the handle, the display name, the gender code,
    the optional years, the living and lineage flags, the unions in which the
    person is a parent ([families]) or a child ([parentFamilies]), and the
    optional 1-based generation hint that the generator reads through
    [(p as any).generation]. *)
Module TreeNode.
Record t := mk {
  handle : string;
  displayName : string;
  gender : Z;
  birthYear : option Z;
  deathYear : option Z;
  isLiving : bool;
  isPatrilineal : bool;
  families : list string;
  parentFamilies : list string;
  generation : option Z;
}.
End TreeNode.

(** Modelled from the spec: the declaration of [TreeFamily] lives in
    [./tree-layout] too.  A union has a handle, an optional father and mother
    handle and the ordered list of its children. *)
Module TreeFamily.
Record t := mk {
  handle : string;
  fatherHandle : option string;
  motherHandle : option string;
  children : list string;
}.
End TreeFamily.

(** ** Output records *)

Module BookChild.
Record t := mk {
  name : string;
  years : string;
  note : option string;
}.
End BookChild.

Module BookPerson.
Record t := mk {
  handle : string;
  name : string;
  gender : Z;
  birthYear : option Z;
  deathYear : option Z;
  isLiving : bool;
  isPatrilineal : bool;
  generation : Z;
  fatherName : option string;
  motherName : option string;
  spouseName : option string;
  spouseYears : option string;
  spouseNote : option string;
  children : list BookChild.t;
  childIndex : option Z;
}.
End BookPerson.

Module BookChapter.
Record t := mk {
  generation : Z;
  title : string;
  romanNumeral : string;
  members : list BookPerson.t;
}.
End BookChapter.

Module NameEntry.
Record t := mk {
  name : string;
  generation : Z;
  isPatrilineal : bool;
}.
End NameEntry.

Module BookData.
Record t := mk {
  familyName : string;
  exportDate : string;
  totalGenerations : Z;
  totalMembers : Z;
  totalPatrilineal : Z;
  chapters : list BookChapter.t;
  nameIndex : list NameEntry.t;
}.
End BookData.

(** ** JavaScript conventions *)

(** Truthiness of an optional number: [undefined] and [0] are falsy. *)
Definition truthy_num (o : option Z) : bool :=
  match o with
  | Some n => negb (n =? 0)
  | None => false
  end.

(** Truthiness of an optional string: [undefined] and the empty string are
    falsy. *)
Definition truthy_str (o : option string) : bool :=
  match o with
  | Some s => negb (String.eqb s EmptyString)
  | None => false
  end.

(** A number inside a template literal. *)
Definition tpl (o : option Z) : string :=
  match o with
  | Some n => pretty n
  | None => "undefined"
  end.

(** [Array.prototype.sort] with a comparator: the sort is stable, and an
    element [x] stays in front of [y] unless [cmp x y > 0].  For a comparator
    that is a total preorder this insertion sort returns the one stable
    sorted arrangement, which is what every conforming engine returns. *)
Section js_sort.
Context {A : Type} (cmp : A → A → Z).

Fixpoint js_insert (x : A) (l : list A) : list A :=
  match l with
  | [] => [x]
  | y :: l' => if cmp x y <=? 0 then x :: y :: l' else y :: js_insert x l'
  end.

Fixpoint js_sort (l : list A) : list A :=
  match l with
  | [] => []
  | x :: l' => js_insert x (js_sort l')
  end.
End js_sort.

(** [new Map(xs.map(x => [key(x), x]))]: a later entry replaces an earlier one
    with the same key. *)
Definition map_by_handle {A} (key : A → string) (xs : list A) : gmap string A :=
  foldl (λ m x, <[key x := x]> m) ∅ xs.

(** [xs.indexOf(x)], [None] standing for [-1]. *)
Definition indexOf (x : string) (xs : list string) : option nat :=
  fst <$> list_find (λ y, y = x) xs.

(** ** Helpers of the generator *)

Definition ROMAN : list string :=
  ["I"; "II"; "III"; "IV"; "V"; "VI"; "VII"; "VIII"; "IX"; "X";
   "XI"; "XII"; "XIII"; "XIV"; "XV"; "XVI"; "XVII"; "XVIII"; "XIX"; "XX"]%string.

Definition GEN_NAMES (gen : Z) : option string :=
  if gen =? 0 then Some "THỦY TỔ"%string else None.

Definition romanNumeral (n : Z) : string :=
  match (if 0 <=? n then ROMAN !! Z.to_nat n else None) with
  | Some r => r
  | None => pretty (n + 1)
  end.

Definition genTitle (gen : Z) : string :=
  let roman := romanNumeral gen in
  let name := default EmptyString (GEN_NAMES gen) in
  if String.eqb name EmptyString
  then ("ĐỜI THỨ " +:+ roman)%string
  else ("ĐỜI THỨ " +:+ roman +:+ " — " +:+ name)%string.

Definition formatYears (birth death : option Z) (isLiving : bool) : string :=
  if negb (truthy_num birth) then "—"%string
  else if truthy_num death then (tpl birth +:+ " – " +:+ tpl death)%string
  else if isLiving then (tpl birth +:+ " – nay")%string
  else tpl birth.

(** ** Step 1: the generation resolver *)

(** [generations.has(h)]. *)
Definition has (gs : gmap string Z) (h : string) : bool :=
  bool_decide (is_Some (gs !! h)).

Section resolver.
Context (personMap : gmap string TreeNode.t).
Context (familyMap : gmap string TreeFamily.t).

(** The mutable state of the [while] loop: the [generations] map and the
    FIFO [queue]; [queue.shift()] takes the head, [queue.push] appends. *)
Record state := State {
  gens : gmap string Z;
  queue : list (string * Z);
}.

(** [if (fam.xHandle && !generations.has(fam.xHandle)) queue.push(...)]. *)
Definition push_parent (gs : gmap string Z) (gen : Z) (o : option string)
    : list (string * Z) :=
  match o with
  | Some h => if truthy_str o && negb (has gs h) then [(h, gen)] else []
  | None => []
  end.

(** [for (const ch of fam.children) if (!generations.has(ch)) queue.push(...)]. *)
Definition push_children (gs : gmap string Z) (gen : Z) (chs : list string)
    : list (string * Z) :=
  (λ ch, (ch, gen + 1)) <$> List.filter (λ ch, negb (has gs ch)) chs.

Definition visit_family (gs : gmap string Z) (gen : Z) (fam : TreeFamily.t)
    : list (string * Z) :=
  push_parent gs gen (TreeFamily.fatherHandle fam)
  ++ push_parent gs gen (TreeFamily.motherHandle fam)
  ++ push_children gs gen (TreeFamily.children fam).

(** [for (const famId of person.families)]: a [famId] that the family map
    does not know is skipped. *)
Definition visit_families (gs : gmap string Z) (gen : Z) (famIds : list string)
    : list (string * Z) :=
  famIds ≫= λ famId,
    match familyMap !! famId with
    | Some fam => visit_family gs gen fam
    | None => []
    end.

(** One iteration of the [while (queue.length > 0)] loop; [None] when the
    queue is empty and the loop exits. *)
Definition bfs_step (st : state) : option state :=
  match queue st with
  | [] => None
  | (h, gen) :: q =>
      Some
        (if has (gens st) h then State (gens st) q
         else
           let gs := <[h := gen]> (gens st) in
           match personMap !! h with
           | None => State gs q
           | Some person =>
               State gs (q ++ visit_families gs gen (TreeNode.families person))
           end)
  end.

(** [n] iterations of the loop, [None] if it exits earlier. *)
Fixpoint bfs_iter (n : nat) (st : state) : option state :=
  match n with
  | O => Some st
  | S n' => match bfs_step st with
            | Some st' => bfs_iter n' st'
            | None => None
            end
  end.

(** *** The termination measure

    Every handle that is ever queued stands in the queue already or is
    named by a union of the family map.  Of these handles, those without a
    generation are [pending]; an iteration that assigns a generation makes
    this set smaller, and an iteration that discards a pair leaves it alone
    and shortens the queue. *)
Definition fam_handles (fam : TreeFamily.t) : gset string :=
  list_to_set (option_list (TreeFamily.fatherHandle fam)
               ++ option_list (TreeFamily.motherHandle fam)
               ++ TreeFamily.children fam).

Definition known_handles : gset string :=
  ⋃ (fam_handles <$> (map_to_list familyMap).*2).

Definition pending (st : state) : gset string :=
  (list_to_set (queue st).*1 ∪ known_handles) ∖ dom (gens st).

Definition state_lt (st' st : state) : Prop :=
  (size (pending st') < size (pending st)
   ∨ (size (pending st') = size (pending st)
      ∧ length (queue st') < length (queue st)))%nat.

Lemma state_lt_wf : well_founded state_lt.
Proof.
  intros st.
  remember (size (pending st)) as n eqn:Hn.
  revert st Hn.
  induction (lt_wf n) as [n _ IHn]; intros st ->.
  remember (length (queue st)) as m eqn:Hm.
  revert st Hm IHn.
  induction (lt_wf m) as [m _ IHm]; intros st -> IHn.
  constructor; intros st' [Hlt | [Heq Hlt]].
  - by eapply IHn.
  - eapply IHm; [exact Hlt | done |].
    intros k Hk st'' ->. eapply IHn; [|done]. by rewrite <- Heq.
Qed.

Lemma known_handles_family famId fam :
  familyMap !! famId = Some fam → fam_handles fam ⊆ known_handles.
Proof.
  intros Hfam x Hx. unfold known_handles.
  apply elem_of_union_list. exists (fam_handles fam). split; [|done].
  apply list_elem_of_fmap. exists fam. split; [done|].
  apply list_elem_of_fmap. exists (famId, fam). split; [done|].
  by apply elem_of_map_to_list.
Qed.

Lemma push_parent_elem gs gen o x g :
  (x, g) ∈ push_parent gs gen o →
  o = Some x ∧ x ≠ EmptyString ∧ gs !! x = None ∧ g = gen.
Proof.
  unfold push_parent. destruct o as [h|]; [|by intros ?%elem_of_nil].
  destruct (truthy_str (Some h) && negb (has gs h)) eqn:E;
    [|by intros ?%elem_of_nil].
  intros Hin%list_elem_of_singleton. simplify_eq.
  apply andb_prop in E as [Ht Hh]. repeat split.
  - simpl in Ht. intros ->. done.
  - unfold has in Hh. apply negb_true_iff, bool_decide_eq_false in Hh.
    by apply eq_None_not_Some.
Qed.

Lemma push_children_elem gs gen chs x g :
  (x, g) ∈ push_children gs gen chs ↔
  x ∈ chs ∧ gs !! x = None ∧ g = gen + 1.
Proof.
  unfold push_children. rewrite list_elem_of_fmap. split.
  - intros (ch & [= -> ->] & Hin).
    apply list_elem_of_In, filter_In in Hin as [Hin Hh].
    apply list_elem_of_In in Hin. split; [done|]. split; [|done].
    unfold has in Hh. apply negb_true_iff, bool_decide_eq_false in Hh.
    by apply eq_None_not_Some.
  - intros (Hin & Hx & ->). exists x. split; [done|].
    apply list_elem_of_In, filter_In. split; [by apply list_elem_of_In|].
    unfold has. apply negb_true_iff, bool_decide_eq_false.
    by apply eq_None_not_Some.
Qed.

Lemma visit_families_elem gs gen famIds x g :
  (x, g) ∈ visit_families gs gen famIds →
  ∃ famId fam, famId ∈ famIds ∧ familyMap !! famId = Some fam
               ∧ (x, g) ∈ visit_family gs gen fam.
Proof.
  unfold visit_families. intros (famId & Hx & Hin)%list_elem_of_bind.
  destruct (familyMap !! famId) as [fam|] eqn:E; [|by apply elem_of_nil in Hx].
  by exists famId, fam.
Qed.

Lemma visit_family_handles gs gen fam x g :
  (x, g) ∈ visit_family gs gen fam → x ∈ fam_handles fam.
Proof.
  unfold visit_family, fam_handles. rewrite !elem_of_app.
  rewrite elem_of_list_to_set, !elem_of_app.
  intros [H | [H | H]].
  - apply push_parent_elem in H as (-> & _). left. by apply list_elem_of_singleton.
  - apply push_parent_elem in H as (-> & _). right; left.
    by apply list_elem_of_singleton.
  - apply push_children_elem in H as (? & _). by right; right.
Qed.

Lemma visit_families_known gs gen famIds x :
  x ∈ (visit_families gs gen famIds).*1 → x ∈ known_handles.
Proof.
  intros ([x' g] & -> & Hin)%list_elem_of_fmap. simpl.
  apply visit_families_elem in Hin as (famId & fam & _ & Hfam & Hin).
  eapply known_handles_family; [done|]. by eapply visit_family_handles.
Qed.

Lemma bfs_step_lt st st' : bfs_step st = Some st' → state_lt st' st.
Proof.
  unfold bfs_step, state_lt, pending.
  destruct st as [gs [|[h gen] q]]; cbn [queue gens]; [done|].
  intros [= <-]. rewrite fmap_cons, list_to_set_cons. cbn [fst].
  unfold has. case_bool_decide as Hh; cbn [queue gens].
  - assert ((list_to_set q.*1 ∪ known_handles) ∖ dom gs
            ⊆ (({[h]} ∪ list_to_set q.*1) ∪ known_handles) ∖ dom gs) as Hsub.
    { intros x. rewrite !elem_of_difference, !elem_of_union. tauto. }
    apply subseteq_size in Hsub. cbn [length]. lia.
  - left. apply subset_size.
    assert (h ∉ dom gs) as Hnd.
    { rewrite elem_of_dom. intros Hs. by apply Hh. }
    assert (∀ q' : list (string * Z),
              (∀ x, x ∈ q'.*1 → x ∈ q.*1 ∨ x ∈ known_handles) →
              (list_to_set q'.*1 ∪ known_handles) ∖ dom (<[h:=gen]> gs)
              ⊂ (({[h]} ∪ list_to_set q.*1) ∪ known_handles) ∖ dom gs) as Hgo.
    { intros q' Hq'. rewrite dom_insert_L. split.
      - intros x. rewrite !elem_of_difference, !elem_of_union,
          !elem_of_list_to_set, !elem_of_singleton.
        intros [[Hx|Hx] Hn]; [destruct (Hq' _ Hx)|]; tauto.
      - intros Hsub. specialize (Hsub h). revert Hsub.
        rewrite !elem_of_difference, !elem_of_union, !elem_of_singleton.
        tauto. }
    destruct (personMap !! h) as [person|]; cbn [queue gens]; apply Hgo.
    + intros x. rewrite fmap_app, elem_of_app. intros [Hx|Hx]; [by left|].
      right. by eapply visit_families_known.
    + by left.
Qed.

(** *** The loop

    The loop runs [bfs_step] until the queue is empty.  It is defined by
    recursion on the accessibility of the state for [state_lt]; the guard
    in front of the well-foundedness proof lets the function compute. *)
Definition bfs_next_of (st : state) (o : option state)
    : (∀ st', o = Some st' → state_lt st' st) → option {st' | state_lt st' st} :=
  match o with
  | Some st' => λ Hlt, Some (st' ↾ Hlt st' eq_refl)
  | None => λ _, None
  end.

Definition bfs_next (st : state) : option {st' | state_lt st' st} :=
  bfs_next_of st (bfs_step st) (bfs_step_lt st).

Fixpoint bfs_go (st : state) (acc : Acc state_lt st) {struct acc}
    : gmap string Z :=
  match bfs_next st with
  | Some (st' ↾ Hlt) => bfs_go st' (Acc_inv acc Hlt)
  | None => gens st
  end.

Definition bfs (st : state) : gmap string Z :=
  bfs_go st (wf_guard 32 state_lt_wf st).

End resolver.

(** The set of every handle listed as a child by some union. *)
Definition childOfFamily (families : list TreeFamily.t) : gset string :=
  list_to_set (families ≫= TreeFamily.children).

(** A valid root is patrilineal and nobody's child. *)
Definition is_root (families : list TreeFamily.t) (p : TreeNode.t) : bool :=
  TreeNode.isPatrilineal p
  && negb (bool_decide (TreeNode.handle p ∈ childOfFamily families)).

Definition roots (people : list TreeNode.t) (families : list TreeFamily.t)
    : list TreeNode.t :=
  List.filter (is_root families) people.

(** The state in front of the [while] loop: no generation yet, every root
    queued at generation 0. *)
Definition initial_state (people : list TreeNode.t) (families : list TreeFamily.t)
    : state :=
  State ∅ ((λ r, (TreeNode.handle r, 0)) <$> roots people families).

(** [(p as any).generation ? ((p as any).generation - 1) : 0]. *)
Definition fallbackGen (p : TreeNode.t) : Z :=
  if truthy_num (TreeNode.generation p)
  then default 0 (TreeNode.generation p) - 1
  else 0.

(** The pass over [people] that follows the traversal. *)
Definition fallback (people : list TreeNode.t) (gs : gmap string Z)
    : gmap string Z :=
  foldl (λ gs p, if has gs (TreeNode.handle p) then gs
                 else <[TreeNode.handle p := fallbackGen p]> gs)
        gs people.

(** The map of generations before the fallback pass. *)
Definition traversal (people : list TreeNode.t) (families : list TreeFamily.t)
    : gmap string Z :=
  bfs (map_by_handle TreeNode.handle people)
      (map_by_handle TreeFamily.handle families)
      (initial_state people families).

(** Step 1 as a whole: the [generations] map that the later steps read. *)
Definition generations (people : list TreeNode.t) (families : list TreeFamily.t)
    : gmap string Z :=
  fallback people (traversal people families).

(** ** Step 2: the person entries *)

Definition NGOAI_TOC : string := "Ngoại tộc".

Section synthesizer.
Context (personMap : gmap string TreeNode.t).
Context (familyMap : gmap string TreeFamily.t).
Context (gs : gmap string Z).

(** [if (h) { const x = personMap.get(h); if (x) ... }]. *)
Definition resolve_person (o : option string) : option TreeNode.t :=
  if truthy_str o then o ≫= λ h, personMap !! h else None.

(** One round of the loop over [p.parentFamilies], on the pair
    [(fatherName, motherName)]. *)
Definition parent_round (acc : option string * option string) (pfId : string)
    : option string * option string :=
  match familyMap !! pfId with
  | Some pf =>
      (match resolve_person (TreeFamily.fatherHandle pf) with
       | Some father => Some (TreeNode.displayName father)
       | None => fst acc
       end,
       match resolve_person (TreeFamily.motherHandle pf) with
       | Some mother => Some (TreeNode.displayName mother)
       | None => snd acc
       end)
  | None => acc
  end.

Definition parentNames (p : TreeNode.t) : option string * option string :=
  foldl parent_round (None, None) (TreeNode.parentFamilies p).

(** The variables of the loop over [p.families]. *)
Record spouse_acc := SpouseAcc {
  acc_spouseName : option string;
  acc_spouseYears : option string;
  acc_spouseNote : option string;
  acc_children : list BookChild.t;
}.

Definition child_entry (child : TreeNode.t) : BookChild.t :=
  BookChild.mk
    (TreeNode.displayName child)
    (formatYears (TreeNode.birthYear child) (TreeNode.deathYear child)
                 (TreeNode.isLiving child))
    (if negb (TreeNode.isPatrilineal child) then Some NGOAI_TOC else None).

(** The entries of the children of one union: a handle the person map does
    not know is skipped. *)
Definition child_entries (chs : list string) : list BookChild.t :=
  omap (λ ch, child_entry <$> personMap !! ch) chs.

Definition spouseHandle (p : TreeNode.t) (fam : TreeFamily.t) : option string :=
  if decide (TreeFamily.fatherHandle fam = Some (TreeNode.handle p))
  then TreeFamily.motherHandle fam
  else TreeFamily.fatherHandle fam.

(** One round of the loop over [p.families]. *)
Definition family_round (p : TreeNode.t) (acc : spouse_acc) (famId : string)
    : spouse_acc :=
  match familyMap !! famId with
  | None => acc
  | Some fam =>
      let acc' :=
        match resolve_person (spouseHandle p fam) with
        | Some spouse =>
            SpouseAcc
              (Some (TreeNode.displayName spouse))
              (Some (formatYears (TreeNode.birthYear spouse)
                                 (TreeNode.deathYear spouse)
                                 (TreeNode.isLiving spouse)))
              (if negb (TreeNode.isPatrilineal spouse) then Some NGOAI_TOC
               else acc_spouseNote acc)
              (acc_children acc)
        | None => acc
        end in
      SpouseAcc (acc_spouseName acc') (acc_spouseYears acc')
                (acc_spouseNote acc')
                (acc_children acc' ++ child_entries (TreeFamily.children fam))
  end.

Definition spouseAndChildren (p : TreeNode.t) : spouse_acc :=
  foldl (family_round p) (SpouseAcc None None None []) (TreeNode.families p).

(** The 1-based position among the children of [p.parentFamilies[0]]. *)
Definition childIndexOf (p : TreeNode.t) : option Z :=
  match TreeNode.parentFamilies p with
  | [] => None
  | pfId :: _ =>
      pf ← familyMap !! pfId;
      idx ← indexOf (TreeNode.handle p) (TreeFamily.children pf);
      Some (Z.of_nat idx + 1)
  end.

Definition buildBookPerson (p : TreeNode.t) : BookPerson.t :=
  let names := parentNames p in
  let sc := spouseAndChildren p in
  BookPerson.mk
    (TreeNode.handle p) (TreeNode.displayName p) (TreeNode.gender p)
    (TreeNode.birthYear p) (TreeNode.deathYear p) (TreeNode.isLiving p)
    (TreeNode.isPatrilineal p)
    (default 0 (gs !! TreeNode.handle p))
    (fst names) (snd names)
    (acc_spouseName sc) (acc_spouseYears sc) (acc_spouseNote sc)
    (acc_children sc)
    (childIndexOf p).

Definition bookPersons (people : list TreeNode.t) : list BookPerson.t :=
  buildBookPerson <$> List.filter TreeNode.isPatrilineal people.
End synthesizer.

(** ** Step 3: the chapters *)

(** [Math.max(0, ...Array.from(generations.values()))]. *)
Definition maxGen (gs : gmap string Z) : Z :=
  foldr Z.max 0 (map_to_list gs).*2.

(** The sort key of a member: [childIndex ?? 99]. *)
Definition sortKey (bp : BookPerson.t) : Z :=
  default 99 (BookPerson.childIndex bp).

Definition compareMembers (a b : BookPerson.t) : Z := sortKey a - sortKey b.

Definition chapterMembers (bps : list BookPerson.t) (g : Z) : list BookPerson.t :=
  js_sort compareMembers (List.filter (λ bp, BookPerson.generation bp =? g) bps).

(** One round of [for (let g = 0; g <= maxGen; g++)]: no chapter when the
    generation has no member. *)
Definition chapter_round (bps : list BookPerson.t) (g : Z) : list BookChapter.t :=
  let members := chapterMembers bps g in
  match members with
  | [] => []
  | _ => [BookChapter.mk g (genTitle g) (romanNumeral g) members]
  end.

Definition buildChapters (bps : list BookPerson.t) (mg : Z) : list BookChapter.t :=
  (Z.of_nat <$> seq 0 (S (Z.to_nat mg))) ≫= chapter_round bps.

(** ** Step 4 and the result *)

Section generator.
(** [a.localeCompare(b, 'vi')] is the collation of the engine, and the
    [exportDate] is what [new Date().toLocaleDateString('vi-VN', ...)]
    returns at the time of the call: both come from the environment. *)
Context (localeCompare : string → string → Z).
Context (today : string).

Definition buildNameIndex (people : list TreeNode.t) (gs : gmap string Z)
    : list NameEntry.t :=
  js_sort (λ a b, localeCompare (NameEntry.name a) (NameEntry.name b))
    ((λ p, NameEntry.mk (TreeNode.displayName p)
                        (default 0 (gs !! TreeNode.handle p))
                        (TreeNode.isPatrilineal p)) <$> people).

(** [familyName] is [None] when the caller leaves the argument out. *)
Definition generateBookData (people : list TreeNode.t)
    (families : list TreeFamily.t) (familyName : option string) : BookData.t :=
  let personMap := map_by_handle TreeNode.handle people in
  let familyMap := map_by_handle TreeFamily.handle families in
  let gs := generations people families in
  let bps := bookPersons personMap familyMap gs people in
  let mg := maxGen gs in
  BookData.mk
    (default "Hoàng"%string familyName)
    today
    (mg + 1)
    (Z.of_nat (length people))
    (Z.of_nat (length (List.filter TreeNode.isPatrilineal people)))
    (buildChapters bps mg)
    (buildNameIndex people gs).
End generator.

(** * Notions of the properties and example inputs *)

(** The generation of the first pair of the handle [h] in a queue. *)
Fixpoint first_gen (h : string) (q : list (string * Z)) : option Z :=
  match q with
  | [] => None
  | (h', g) :: q' => if decide (h' = h) then Some g else first_gen h q'
  end.


(** The generation that the fallback pass gives according to the hint, in
    the words of the specification: the hint less one, or 0 without a hint. *)
Definition fallbackGen_spec (p : TreeNode.t) : Z :=
  match TreeNode.generation p with
  | Some hint => hint - 1
  | None => 0
  end.

(** The lifespan string in the words of the specification: a year is present
    when the field holds one. *)
Definition formatYears_spec (birth death : option Z) (isLiving : bool) : string :=
  match birth, death with
  | None, _ => "—"
  | Some b, Some d => pretty b +:+ " – " +:+ pretty d
  | Some b, None => if isLiving then pretty b +:+ " – nay" else pretty b
  end.

(** A year that the code takes as given: the year 0 counts as absent. *)
Definition given_year (o : option Z) : option Z :=
  match o with
  | Some y => if y =? 0 then None else Some y
  | None => None
  end.

(** The name that one parent union contributes for a parent slot. *)
Definition name_in_union (personMap : gmap string TreeNode.t)
    (familyMap : gmap string TreeFamily.t)
    (slot : TreeFamily.t → option string) (pfId : string) : option string :=
  pf ← familyMap !! pfId;
  TreeNode.displayName <$> resolve_person personMap (slot pf).

(** The loop keeps, per slot, the name of the last union that has one. *)
Definition last_name (f : string → option string) (a : option string)
    (pfIds : list string) : option string :=
  foldl (λ a pfId, from_option Some a (f pfId)) a pfIds.

(** Comparison and order of two elements by an integer key. *)
Definition key_compare {A} (key : A → Z) (a b : A) : Z := key a - key b.
Definition key_le {A} (key : A → Z) (a b : A) : Prop := key a ≤ key b.

(** The entry of the person with handle [h] in the chapters of a book. *)
Definition entryOf (h : string) (book : BookData.t) : option BookPerson.t :=
  head (List.filter (λ bp, String.eqb (BookPerson.handle bp) h)
                    (BookData.chapters book ≫= BookChapter.members)).

(** The collation and the date of the examples. *)
Definition byteCompare (a b : string) : Z :=
  if String.eqb a b then 0 else if String.ltb a b then -1 else 1.

Definition aDate : string := "1 tháng 1, 2025".

Definition anotherDate : string := "2 tháng 1, 2025".


(** ** The example of the three-person family: A and B have the child C. *)
Module Example3.
Definition A := TreeNode.mk "A" "A" 1 (Some 1950) None true true ["F"%string] [] None.
Definition B := TreeNode.mk "B" "B" 2 (Some 1952) (Some 2000) false false ["F"%string] [] None.
Definition C := TreeNode.mk "C" "C" 1 None None true true [] ["F"%string] None.
Definition F := TreeFamily.mk "F" (Some "A"%string) (Some "B"%string) ["C"%string].
Definition people := [A; B; C].
Definition families := [F].
End Example3.

(** A union graph with a cycle: X is a child of Y's union and Y a child of
    X's union, and the root R has X as a child too. *)
Module Cycle.
Definition R := TreeNode.mk "R" "R" 1 None None false true ["FR"%string] [] None.
Definition X := TreeNode.mk "X" "X" 1 None None false true ["FX"%string]
                            ["FR"; "FY"]%string None.
Definition Y := TreeNode.mk "Y" "Y" 1 None None false true ["FY"%string]
                            ["FX"%string] None.
Definition FR := TreeFamily.mk "FR" (Some "R"%string) None ["X"%string].
Definition FX := TreeFamily.mk "FX" (Some "X"%string) None ["Y"%string].
Definition FY := TreeFamily.mk "FY" (Some "Y"%string) None ["X"%string].
Definition people := [R; X; Y].
Definition families := [FR; FX; FY].
End Cycle.

(** A union whose parents are reached on different paths: the mother B is a
    root, the father A is the child of the root R. *)
Module MixedParents.
Definition R := TreeNode.mk "R" "R" 1 None None false true ["FR"%string] [] None.
Definition B := TreeNode.mk "B" "B" 2 None None false true ["F"%string] [] None.
Definition A := TreeNode.mk "A" "A" 1 None None false true ["F"%string]
                            ["FR"%string] None.
Definition C := TreeNode.mk "C" "C" 1 None None true true [] ["F"%string] None.
Definition FR := TreeFamily.mk "FR" (Some "R"%string) None ["A"%string].
Definition F := TreeFamily.mk "F" (Some "A"%string) (Some "B"%string) ["C"%string].
Definition people := [R; B; A; C].
Definition families := [FR; F].
End MixedParents.

Module Hint0.
Definition X := TreeNode.mk "X" "X" 1 None None false false [] [] (Some 0).
Definition people := [X].
End Hint0.

Module Hint3.
Definition X := TreeNode.mk "X" "X" 1 None None false false [] [] (Some 3).
Definition people := [X; Example3.A].
End Hint3.

(** A man with two unions: his first wife comes from outside the lineage,
    his second wife is of the lineage. *)
Module Remarriage.
Definition P := TreeNode.mk "P" "P" 1 (Some 1900) (Some 1970) false true
                            ["F1"; "F2"]%string [] None.
Definition S1 := TreeNode.mk "S1" "S1" 2 (Some 1902) (Some 1930) false false
                             ["F1"%string] [] None.
Definition S2 := TreeNode.mk "S2" "S2" 2 (Some 1905) None false true
                             ["F2"%string] [] None.
Definition K1 := TreeNode.mk "K1" "K1" 1 (Some 1925) None true true
                             [] ["F1"%string] None.
Definition K2 := TreeNode.mk "K2" "K2" 2 (Some 1935) None true true
                             [] ["F2"%string] None.
Definition F1 := TreeFamily.mk "F1" (Some "P"%string) (Some "S1"%string) ["K1"%string].
Definition F2 := TreeFamily.mk "F2" (Some "P"%string) (Some "S2"%string) ["K2"%string].
Definition people := [P; S1; S2; K1; K2].
Definition families := [F1; F2].
Definition book := generateBookData byteCompare aDate people families None.
End Remarriage.

(** A person with two parent unions, each with a father and a mother. *)
Module TwoParentUnions.
Definition Fa1 := TreeNode.mk "Fa1" "Father One" 1 None None false true
                              ["PF1"%string] [] None.
Definition Mo1 := TreeNode.mk "Mo1" "Mother One" 2 None None false false
                              ["PF1"%string] [] None.
Definition Fa2 := TreeNode.mk "Fa2" "Father Two" 1 None None false true
                              ["PF2"%string] [] None.
Definition Mo2 := TreeNode.mk "Mo2" "Mother Two" 2 None None false false
                              ["PF2"%string] [] None.
Definition X := TreeNode.mk "X" "X" 1 None None true true
                            [] ["PF1"; "PF2"]%string None.
Definition PF1 := TreeFamily.mk "PF1" (Some "Fa1"%string) (Some "Mo1"%string) ["X"%string].
Definition PF2 := TreeFamily.mk "PF2" (Some "Fa2"%string) (Some "Mo2"%string) ["X"%string].
Definition people := [Fa1; Mo1; Fa2; Mo2; X].
Definition families := [PF1; PF2].
Definition book := generateBookData byteCompare aDate people families None.
End TwoParentUnions.

(** A union that lists a hundred children, and a root: the entry of the root
    has no birth-order index, the entry of the hundredth child has index
    100.  Of the children only the hundredth is patrilineal. *)
Module HundredChildren.
Definition childHandle (i : nat) : string := "c" +:+ pretty i.
Definition child (i : nat) : TreeNode.t :=
  TreeNode.mk (childHandle i) (childHandle i) 1 None None false
              (bool_decide (i = 100%nat)) [] ["F"%string] None.
Definition R := TreeNode.mk "R" "R" 1 None None false true [] [] None.
Definition F := TreeFamily.mk "F" None None (childHandle <$> seq 1 100).
Definition people := R :: (child <$> seq 1 100).
Definition families := [F].
Definition book := generateBookData byteCompare aDate people families None.
End HundredChildren.

(** The spouse that the loop over [p.families] finds in one union: the
    person in the other parent slot, if the family map knows the union, the
    slot is filled and the person map knows the handle. *)
Definition spouse_in (personMap : gmap string TreeNode.t)
    (familyMap : gmap string TreeFamily.t) (p : TreeNode.t) (famId : string)
    : option TreeNode.t :=
  fam ← familyMap !! famId; resolve_person personMap (spouseHandle p fam).

(** The spouses found, in the order of the unions. *)
Definition resolved_spouses (personMap : gmap string TreeNode.t)
    (familyMap : gmap string TreeFamily.t) (p : TreeNode.t) : list TreeNode.t :=
  omap (spouse_in personMap familyMap p) (TreeNode.families p).

(** The child entries of one union, and of all unions of [p]. *)
Definition children_in (personMap : gmap string TreeNode.t)
    (familyMap : gmap string TreeFamily.t) (famId : string) : list BookChild.t :=
  match familyMap !! famId with
  | Some fam => child_entries personMap (TreeFamily.children fam)
  | None => []
  end.

Definition union_children (personMap : gmap string TreeNode.t)
    (familyMap : gmap string TreeFamily.t) (p : TreeNode.t) : list BookChild.t :=
  TreeNode.families p ≫= children_in personMap familyMap.

Definition lifespan (s : TreeNode.t) : string :=
  formatYears (TreeNode.birthYear s) (TreeNode.deathYear s) (TreeNode.isLiving s).

Definition outsider (s : TreeNode.t) : bool := negb (TreeNode.isPatrilineal s).

(** The handles that a union names. *)
Definition names_handle (f : TreeFamily.t) (h : string) : Prop :=
  TreeFamily.fatherHandle f = Some h
  ∨ TreeFamily.motherHandle f = Some h
  ∨ h ∈ TreeFamily.children f.

(** A comparator by the length of the names, for examples. *)
Definition lengthCompare (a b : string) : Z :=
  Z.of_nat (String.length a) - Z.of_nat (String.length b).

(** Why a handle [x] has the generation [g] in a map [gs] of the traversal:
    a person with a generation in [gs] lists a union that names [x], as a
    parent for the same generation, as a child for the next one. *)
Definition derived (personMap : gmap string TreeNode.t)
    (familyMap : gmap string TreeFamily.t) (gs : gmap string Z)
    (x : string) (g : Z) : Prop :=
  ∃ h g' person famId fam,
    gs !! h = Some g'
    ∧ personMap !! h = Some person
    ∧ famId ∈ TreeNode.families person
    ∧ familyMap !! famId = Some fam
    ∧ (((TreeFamily.fatherHandle fam = Some x ∨ TreeFamily.motherHandle fam = Some x)
        ∧ g = g')
       ∨ (x ∈ TreeFamily.children fam ∧ g = g' + 1)).

(** Two people who are each the child of the other's union: nobody is a
    root. *)
Module NoRoot.
Definition X := TreeNode.mk "X" "X" 1 None None false true ["FX"%string]
                            ["FY"%string] (Some 3).
Definition Y := TreeNode.mk "Y" "Y" 1 None None false true ["FY"%string]
                            ["FX"%string] None.
Definition FX := TreeFamily.mk "FX" (Some "X"%string) None ["Y"%string].
Definition FY := TreeFamily.mk "FY" (Some "Y"%string) None ["X"%string].
Definition people := [X; Y].
Definition families := [FX; FY].
End NoRoot.

(** The roman numeral of a number, by the usual rule: take the largest
    value of the table that fits, as often as it fits. *)
Definition roman_values : list (nat * string) :=
  [(1000, "M"); (900, "CM"); (500, "D"); (400, "CD"); (100, "C"); (90, "XC");
   (50, "L"); (40, "XL"); (10, "X"); (9, "IX"); (5, "V"); (4, "IV");
   (1, "I")]%nat%string.

Fixpoint roman_go (fuel n : nat) (table : list (nat * string)) : string :=
  match fuel with
  | O => EmptyString
  | S fuel' =>
      match table with
      | [] => EmptyString
      | (v, s) :: table' =>
          if (v <=? n)%nat then (s +:+ roman_go fuel' (n - v) table)%string
          else roman_go fuel' n table'
      end
  end.

Definition to_roman (n : nat) : string :=
  roman_go (n + length roman_values) n roman_values.

(** The last character of a string. *)
Fixpoint last_char (s : string) : option Ascii.ascii :=
  match s with
  | EmptyString => None
  | String c EmptyString => Some c
  | String _ s' => last_char s'
  end.

Definition is_digit (c : Ascii.ascii) : bool :=
  bool_decide (c ∈ ["0"; "1"; "2"; "3"; "4"; "5"; "6"; "7"; "8"; "9"]%char).

(** The handles that the unions of a person hand on: the parent handles
    that are not empty, and the children. *)
Definition handed_on (familyMap : gmap string TreeFamily.t)
    (person : TreeNode.t) (x : string) : Prop :=
  ∃ famId fam,
    famId ∈ TreeNode.families person ∧ familyMap !! famId = Some fam
    ∧ (((TreeFamily.fatherHandle fam = Some x ∨ TreeFamily.motherHandle fam = Some x)
        ∧ x ≠ EmptyString)
       ∨ x ∈ TreeFamily.children fam).


(** Two records with the same handle and different hints. *)
Module Twice.
Definition first := TreeNode.mk "D" "First" 1 None None false false [] [] (Some 5).
Definition second := TreeNode.mk "D" "Second" 1 None None false false [] [] (Some 2).
Definition people := [first; second].
End Twice.

(** ** Runs of the generator

    A run of [generateBookData] takes two things from its environment: the
    date that [new Date()] reads, and the routine behind
    [Array.prototype.sort].  Of this routine the language only says that,
    for a consistent comparator, the result holds the same elements in
    ascending order of the comparator and that the sort is stable; which
    algorithm sorts is left to the engine. *)

(** A consistent comparator: the signs of [cmp a b] and [cmp b a] are
    opposite, and "not after" is transitive. *)
Definition consistent {A} (cmp : A → A → Z) : Prop :=
  (∀ a b, cmp a b ≤ 0 → 0 ≤ cmp b a)
  ∧ (∀ a b, 0 ≤ cmp a b → cmp b a ≤ 0)
  ∧ (∀ a b c, cmp a b ≤ 0 → cmp b c ≤ 0 → cmp a c ≤ 0).

(** What a sort routine owes for the comparator [cmp]: a permutation, in
    ascending order, in which the elements that compare equal to any given
    [a] stand in the order they had. *)
Definition sort_contract {A} (cmp : A → A → Z) (sort : list A → list A) : Prop :=
  ∀ l,
    sort l ≡ₚ l
    ∧ StronglySorted (λ a b, cmp a b ≤ 0) (sort l)
    ∧ ∀ a, List.filter (λ x, cmp a x =? 0) (sort l)
           = List.filter (λ x, cmp a x =? 0) l.

(** A sort routine of an engine, and what makes it conform. *)
Definition sort_routine : Type := ∀ A : Type, (A → A → Z) → list A → list A.

Definition conforming (sort : sort_routine) : Prop :=
  ∀ (A : Type) (cmp : A → A → Z), consistent cmp → sort_contract cmp (sort A cmp).

Definition compareNames (localeCompare : string → string → Z)
    (a b : NameEntry.t) : Z :=
  localeCompare (NameEntry.name a) (NameEntry.name b).

(** Steps 3 and 4 and the result, with the sort routine [sort] of the engine
    in the place of [.sort(...)]. *)
Section run.
Context (sort : sort_routine).
Context (localeCompare : string → string → Z).
Context (today : string).

Definition chapterMembers_of_run (bps : list BookPerson.t) (g : Z)
    : list BookPerson.t :=
  sort _ compareMembers (List.filter (λ bp, BookPerson.generation bp =? g) bps).

Definition chapter_round_of_run (bps : list BookPerson.t) (g : Z)
    : list BookChapter.t :=
  let members := chapterMembers_of_run bps g in
  match members with
  | [] => []
  | _ => [BookChapter.mk g (genTitle g) (romanNumeral g) members]
  end.

Definition buildChapters_of_run (bps : list BookPerson.t) (mg : Z)
    : list BookChapter.t :=
  (Z.of_nat <$> seq 0 (S (Z.to_nat mg))) ≫= chapter_round_of_run bps.

Definition buildNameIndex_of_run (people : list TreeNode.t) (gs : gmap string Z)
    : list NameEntry.t :=
  sort _ (compareNames localeCompare)
    ((λ p, NameEntry.mk (TreeNode.displayName p)
                        (default 0 (gs !! TreeNode.handle p))
                        (TreeNode.isPatrilineal p)) <$> people).

Definition bookOfRun (people : list TreeNode.t)
    (families : list TreeFamily.t) (familyName : option string) : BookData.t :=
  let personMap := map_by_handle TreeNode.handle people in
  let familyMap := map_by_handle TreeFamily.handle families in
  let gs := generations people families in
  let bps := bookPersons personMap familyMap gs people in
  let mg := maxGen gs in
  BookData.mk
    (default "Hoàng"%string familyName)
    today
    (mg + 1)
    (Z.of_nat (length people))
    (Z.of_nat (length (List.filter TreeNode.isPatrilineal people)))
    (buildChapters_of_run bps mg)
    (buildNameIndex_of_run people gs).
End run.

(** A second sort routine: the elements are taken from left to right, and
    each one is put behind the elements of the sorted part that are not
    after it. *)
Section ltr_sort.
Context {A : Type} (cmp : A → A → Z).

Fixpoint ltr_insert (x : A) (l : list A) : list A :=
  match l with
  | [] => [x]
  | y :: l' => if cmp y x <=? 0 then y :: ltr_insert x l' else x :: y :: l'
  end.

Definition ltr_sort (l : list A) : list A :=
  foldl (λ sorted x, ltr_insert x sorted) [] l.
End ltr_sort.

(** * Properties *)

(** ** Examples *)

Example example3_generations :
  let gs := generations Example3.people Example3.families in
  gs !! "A"%string = Some 0 ∧ gs !! "B"%string = Some 0 ∧ gs !! "C"%string = Some 1.
Proof. vm_compute. done. Qed.

Example cycle_generations :
  let gs := generations Cycle.people Cycle.families in
  gs !! "R"%string = Some 0 ∧ gs !! "X"%string = Some 1 ∧ gs !! "Y"%string = Some 2.
Proof. vm_compute. done. Qed.

(** The child C has its generation from the mother, whose pair for C is
    queued first, and not from the father: the law of propagation holds for
    the parent on the path that reaches the child first. *)
Example mixed_parents_generations :
  let gs := generations MixedParents.people MixedParents.families in
  gs !! "A"%string = Some 1 ∧ gs !! "B"%string = Some 0 ∧ gs !! "C"%string = Some 1.
Proof. vm_compute. done. Qed.

Example formatYears_living : formatYears (Some 1950) None true = "1950 – nay"%string.
Proof. reflexivity. Qed.

Example formatYears_both : formatYears (Some 1950) (Some 2000) false = "1950 – 2000"%string.
Proof. reflexivity. Qed.

Example formatYears_none : formatYears None (Some 2000) true = "—"%string.
Proof. reflexivity. Qed.

(** ** The loop of the traversal *)

Section traversal_facts.
Context (personMap : gmap string TreeNode.t).
Context (familyMap : gmap string TreeFamily.t).

Local Abbreviation step := (bfs_step personMap familyMap).
Local Abbreviation iter := (bfs_iter personMap familyMap).
Local Abbreviation next := (bfs_next personMap familyMap).
Local Abbreviation go := (bfs_go personMap familyMap).
Local Abbreviation loop := (bfs personMap familyMap).

Lemma bfs_next_step st : proj1_sig <$> next st = step st.
Proof.
  unfold bfs_next. generalize (bfs_step_lt personMap familyMap st).
  by destruct (step st).
Qed.

Lemma bfs_go_irrel st (a1 a2 : Acc (state_lt familyMap) st) : go st a1 = go st a2.
Proof.
  revert st a1 a2. fix IH 2. intros st [a1] [a2]. cbn [bfs_go Acc_inv].
  destruct (next st) as [[st' Hlt]|]; [apply IH | done].
Qed.

Lemma bfs_unfold st :
  loop st = match step st with
           | Some st' => loop st'
           | None => gens st
           end.
Proof.
  rewrite <- bfs_next_step. unfold bfs.
  destruct (wf_guard 32 (state_lt_wf familyMap) st) as [a]. cbn [bfs_go Acc_inv].
  destruct (next st) as [[st' Hlt]|]; [apply bfs_go_irrel | done].
Qed.

(** Induction along the run of the loop. *)
Lemma bfs_ind (P : state → gmap string Z → Prop) :
  (∀ st, step st = None → P st (gens st)) →
  (∀ st st', step st = Some st' → P st' (loop st') → P st (loop st')) →
  ∀ st, P st (loop st).
Proof.
  intros Hexit Hiter st.
  induction (state_lt_wf familyMap st) as [st _ IH].
  rewrite bfs_unfold. destruct (step st) as [st'|] eqn:E.
  - apply Hiter; [done|]. apply IH.
    by apply (bfs_step_lt personMap familyMap).
  - by apply Hexit.
Qed.

Lemma bfs_step_None st : step st = None ↔ queue st = [].
Proof.
  unfold bfs_step. destruct (queue st) as [|[h gen] q]; split; done.
Qed.

(** The loop exits after finitely many iterations, and [bfs] returns the
    map of that moment. *)
Lemma bfs_exits st :
  ∃ n st', iter n st = Some st' ∧ queue st' = [] ∧ loop st = gens st'.
Proof.
  apply (bfs_ind (λ st r, ∃ n st',
           iter n st = Some st' ∧ queue st' = [] ∧ r = gens st')).
  - intros st0 H0. exists O, st0. split; [done|]. split; [|done].
    by apply bfs_step_None.
  - intros st0 st1 Hstep (n & st' & Hn & Hq & Hr).
    exists (S n), st'. cbn [bfs_iter]. by rewrite Hstep.
Qed.

(** A run of the loop does not change the result. *)
Lemma bfs_iter_result n st st' : iter n st = Some st' → loop st = loop st'.
Proof.
  revert st. induction n as [|n IH]; intros st; cbn [bfs_iter].
  - by intros [= ->].
  - destruct (step st) as [st1|] eqn:E; [|done].
    intros Hn. rewrite bfs_unfold, E. by apply IH.
Qed.

(** A generation, once assigned, is never overwritten. *)
Lemma bfs_step_keeps st st' h g :
  step st = Some st' → gens st !! h = Some g → gens st' !! h = Some g.
Proof.
  unfold bfs_step. destruct (queue st) as [|[h0 gen] q]; [done|].
  intros [= <-] Hh. unfold has. case_bool_decide as Hh0; [done|].
  assert (h0 ≠ h) as Hne.
  { intros ->. apply Hh0. by exists g. }
  destruct (personMap !! h0); cbn [gens]; by rewrite lookup_insert_ne.
Qed.

Lemma bfs_keeps st h g : gens st !! h = Some g → loop st !! h = Some g.
Proof.
  apply (bfs_ind (λ st r, gens st !! h = Some g → r !! h = Some g)).
  - done.
  - intros st0 st1 Hstep IH Hh. apply IH. by eapply bfs_step_keeps.
Qed.

Lemma first_gen_app h q1 q2 :
  first_gen h (q1 ++ q2)
  = match first_gen h q1 with Some g => Some g | None => first_gen h q2 end.
Proof.
  induction q1 as [|[h' g] q1 IH]; [done|]. cbn [app first_gen].
  by case_decide.
Qed.

Lemma first_gen_None h q : first_gen h q = None ↔ h ∉ q.*1.
Proof.
  induction q as [|[h' g] q IH]; cbn [first_gen].
  - split; [intros _; apply not_elem_of_nil | done].
  - rewrite fmap_cons, not_elem_of_cons. cbn [fst].
    case_decide; [split; [done | intros [? _]; congruence]|].
    rewrite IH. split; [by intros ? | by intros [_ ?]].
Qed.

(** First in the queue wins: a handle without a generation receives the
    generation of its first pair in the queue. *)
Lemma bfs_first_wins st h g :
  gens st !! h = None → first_gen h (queue st) = Some g →
  loop st !! h = Some g.
Proof.
  apply (bfs_ind (λ st r, gens st !! h = None →
                          first_gen h (queue st) = Some g → r !! h = Some g)).
  - intros st0 ->%bfs_step_None. done.
  - intros st0 st1 Hstep IH Hh Hq.
    unfold bfs_step in Hstep.
    destruct (queue st0) as [|[h0 gen] q] eqn:Eq; [done|].
    injection Hstep as <-. cbn [first_gen] in Hq.
    unfold has in *. case_bool_decide as Hh0.
    + case_decide as Heq.
      * subst h0. rewrite Hh in Hh0. by destruct Hh0.
      * by apply IH.
    + case_decide as Heq.
      * subst h0. injection Hq as ->. apply bfs_keeps.
        destruct (personMap !! h); cbn [gens]; by rewrite lookup_insert_eq.
      * destruct (personMap !! h0); cbn [gens queue] in *.
        -- apply IH; [by rewrite lookup_insert_ne|].
           by rewrite first_gen_app, Hq.
        -- apply IH; [by rewrite lookup_insert_ne | done].
Qed.
End traversal_facts.

(** ** The fallback pass *)

Lemma fallback_keeps people gs h g :
  gs !! h = Some g → fallback people gs !! h = Some g.
Proof.
  unfold fallback. revert gs.
  induction people as [|p people IH]; intros gs Hh; cbn [foldl]; [done|].
  apply IH. unfold has. case_bool_decide as Hp; [done|].
  rewrite lookup_insert_ne; [done|].
  intros Heq. apply Hp. rewrite Heq. by exists g.
Qed.

Lemma fallback_total people gs p :
  p ∈ people → is_Some (fallback people gs !! TreeNode.handle p).
Proof.
  unfold fallback. revert gs.
  induction people as [|p0 people IH]; intros gs Hin; [by apply elem_of_nil in Hin|].
  cbn [foldl]. apply elem_of_cons in Hin as [->|Hin]; [|by apply IH].
  unfold has. case_bool_decide as Hp.
  - destruct Hp as [g Hg]. exists g. by apply fallback_keeps.
  - exists (fallbackGen p0). apply fallback_keeps. by rewrite lookup_insert_eq.
Qed.

Lemma fallback_fresh people gs p :
  NoDup (TreeNode.handle <$> people) → p ∈ people →
  gs !! TreeNode.handle p = None →
  fallback people gs !! TreeNode.handle p = Some (fallbackGen p).
Proof.
  unfold fallback. revert gs.
  induction people as [|p0 people IH]; intros gs Hnd Hin Hp;
    [by apply elem_of_nil in Hin|].
  rewrite fmap_cons in Hnd. apply NoDup_cons in Hnd as [Hp0 Hnd].
  cbn [foldl]. apply elem_of_cons in Hin as [->|Hin].
  - unfold has. rewrite bool_decide_eq_false_2
      by (rewrite Hp; intros [? ?]; done).
    apply fallback_keeps. by rewrite lookup_insert_eq.
  - assert (TreeNode.handle p0 ≠ TreeNode.handle p) as Hne.
    { intros Heq. apply Hp0. rewrite Heq. by apply list_elem_of_fmap_2. }
    apply IH; [done..|].
    unfold has. case_bool_decide; [done|]. by rewrite lookup_insert_ne.
Qed.

(** ** The queue in front of the loop *)

Lemma first_gen_constant h g0 (q : list (string * Z)) :
  h ∈ q.*1 → (∀ g, (h, g) ∈ q → g = g0) → first_gen h q = Some g0.
Proof.
  induction q as [|[h' g'] q IH]; [by intros ?%elem_of_nil|].
  rewrite fmap_cons. cbn [fst first_gen]. intros Hin Hall.
  case_decide as Heq.
  - subst h'. f_equal. apply Hall. by left.
  - apply IH.
    + by apply elem_of_cons in Hin as [?|?].
    + intros g Hg. apply Hall. by right.
Qed.

Lemma childOfFamily_spec families h :
  h ∈ childOfFamily families ↔ ∃ f, f ∈ families ∧ h ∈ TreeFamily.children f.
Proof.
  unfold childOfFamily. rewrite elem_of_list_to_set, list_elem_of_bind.
  split; intros (f & ? & ?); by exists f.
Qed.

Lemma root_queued people families p :
  p ∈ people → is_root families p = true →
  first_gen (TreeNode.handle p) (queue (initial_state people families)) = Some 0.
Proof.
  intros Hin Hroot. cbn [initial_state queue]. apply first_gen_constant.
  - rewrite <- list_fmap_compose. apply list_elem_of_fmap. exists p.
    split; [done|]. unfold roots. apply list_elem_of_In, filter_In.
    split; [by apply list_elem_of_In | done].
  - intros g (r & [= _ ->] & _)%list_elem_of_fmap. done.
Qed.

Lemma generations_total people families p :
  p ∈ people → is_Some (generations people families !! TreeNode.handle p).
Proof. apply fallback_total. Qed.

(** ** Claims *)

(** C1 (totality of the generation map): every person of the input has a
    generation in the map that [generateBookData] builds, and exactly one:
    the map holds one value under a handle. *)
Theorem C1_generations_total people families p :
  p ∈ people →
  ∃ g, generations people families !! TreeNode.handle p = Some g
       ∧ ∀ g', generations people families !! TreeNode.handle p = Some g' → g' = g.
Proof.
  intros Hin.
  destruct (generations_total people families p Hin) as [g Hg].
  exists g. split; [done|]. intros g' Hg'. congruence.
Qed.

Lemma C1_generations_total_witness :
  ∃ g, generations Example3.people Example3.families !! "B"%string = Some g
       ∧ ∀ g', generations Example3.people Example3.families !! "B"%string
               = Some g' → g' = g.
Proof.
  apply (C1_generations_total Example3.people Example3.families Example3.B).
  unfold Example3.people. apply elem_of_cons. right. apply elem_of_cons. by left.
Defined.

(** C2 (roots at generation 0): a person of the input who is patrilineal and
    whom no union lists among its children has generation 0 in the map of
    [generateBookData], whatever else the unions say: the roots stand in the
    queue in front of every pair the traversal adds. *)
Theorem C2_root_generation_zero people families p :
  p ∈ people →
  TreeNode.isPatrilineal p = true →
  (∀ f, f ∈ families → TreeNode.handle p ∉ TreeFamily.children f) →
  generations people families !! TreeNode.handle p = Some 0.
Proof.
  intros Hin Hpat Hnochild.
  assert (is_root families p = true) as Hroot.
  { unfold is_root. rewrite Hpat. cbn [andb]. apply negb_true_iff.
    apply bool_decide_eq_false. rewrite childOfFamily_spec.
    intros (f & Hf & Hc). by apply (Hnochild f). }
  apply fallback_keeps. unfold traversal. apply bfs_first_wins.
  - apply lookup_empty.
  - by apply root_queued.
Qed.

Lemma C2_root_generation_zero_witness :
  generations Example3.people Example3.families !! "A"%string = Some 0.
Proof.
  apply (C2_root_generation_zero Example3.people Example3.families Example3.A).
  - by left.
  - reflexivity.
  - intros f Hf. apply list_elem_of_singleton in Hf as ->.
    cbn. intros Hc. apply list_elem_of_singleton in Hc. discriminate Hc.
Defined.

(** C10 (termination of the resolver): for every input, cyclic or
    inconsistent ones included, the loop of the traversal exits after
    finitely many iterations with an empty queue, and the map of that moment
    is the result of the traversal.  The model has no error value: the
    resolver returns a map on every input.  At every moment of the run a
    handle that has a generation keeps it to the end, and a handle without
    one receives the generation of its first pair in the queue: the path
    that reaches it first. *)
Theorem C10_traversal_terminates people families :
  let personMap := map_by_handle TreeNode.handle people in
  let familyMap := map_by_handle TreeFamily.handle families in
  let start := initial_state people families in
  (∃ n st,
     bfs_iter personMap familyMap n start = Some st
     ∧ queue st = []
     ∧ traversal people families = gens st
     ∧ generations people families = fallback people (gens st))
  ∧ (∀ m st h g,
       bfs_iter personMap familyMap m start = Some st →
       gens st !! h = Some g
       ∨ (gens st !! h = None ∧ first_gen h (queue st) = Some g) →
       generations people families !! h = Some g).
Proof.
  intros personMap familyMap start. split.
  - destruct (bfs_exits personMap familyMap start) as (n & st & Hn & Hq & Hr).
    exists n, st. unfold generations, traversal. fold personMap familyMap start.
    by rewrite Hr.
  - intros m st h g Hm Hh. apply fallback_keeps. unfold traversal.
    fold personMap familyMap start. rewrite (bfs_iter_result _ _ _ _ _ Hm).
    destruct Hh as [Hh | [Hh Hq]].
    + by apply bfs_keeps.
    + by apply bfs_first_wins.
Qed.

(** A person whom the traversal does not reach and whose record holds the
    hint 0 receives generation 0, not the hint less one. *)
Lemma C8_counterexample_hint_zero :
  traversal Hint0.people [] !! "X"%string = None
  ∧ TreeNode.generation Hint0.X = Some 0
  ∧ generations Hint0.people [] !! "X"%string = Some 0
  ∧ generations Hint0.people [] !! "X"%string ≠ Some (fallbackGen_spec Hint0.X).
Proof. vm_compute. repeat split; discriminate. Qed.

(** C8, amended (fallback rule): with handles that are unique among the
    people, a person whom the traversal reaches keeps the generation of the
    traversal, and a person whom it does not reach receives the hint less one
    when the record has a hint other than 0, and generation 0 when it has no
    hint or the hint 0. *)
Theorem C8_fallback_rule people families p :
  NoDup (TreeNode.handle <$> people) →
  p ∈ people →
  generations people families !! TreeNode.handle p =
    match traversal people families !! TreeNode.handle p with
    | Some g => Some g
    | None =>
        match TreeNode.generation p with
        | Some hint => if hint =? 0 then Some 0 else Some (hint - 1)
        | None => Some 0
        end
    end.
Proof.
  intros Hnd Hin. unfold generations.
  destruct (traversal people families !! TreeNode.handle p) as [g|] eqn:E.
  - by apply fallback_keeps.
  - rewrite (fallback_fresh people _ p Hnd Hin E). unfold fallbackGen, truthy_num.
    destruct (TreeNode.generation p) as [hint|]; [|done].
    cbn [default]. by destruct (hint =? 0).
Qed.

Lemma C8_fallback_rule_witness :
  generations Hint3.people [] !! "X"%string = Some 2.
Proof.
  apply (C8_fallback_rule Hint3.people [] Hint3.X).
  - vm_compute. apply NoDup_cons. split.
    + intros Hin. apply list_elem_of_singleton in Hin. discriminate Hin.
    + apply NoDup_singleton.
  - by left.
Defined.

(** A birth year 0 gives the dash although a birth year is recorded, and a
    death year 0 is passed over. *)
Lemma C9_counterexample_year_zero :
  formatYears (Some 0) (Some 2000) false = "—"%string
  ∧ formatYears_spec (Some 0) (Some 2000) false = "0 – 2000"%string
  ∧ formatYears (Some 1950) (Some 0) true = "1950 – nay"%string
  ∧ formatYears_spec (Some 1950) (Some 0) true = "1950 – 0"%string.
Proof. vm_compute. done. Qed.

(** C9, amended (lifespan formatting): with a year counted as given when the
    field holds a year other than 0, the lifespan string is the dash when no
    birth year is given, birth and death year joined when both are given,
    the birth year joined to "nay" (now) when only the birth year is given
    and the person is living, and the birth year alone otherwise. *)
Theorem C9_formatYears_cases birth death isLiving :
  formatYears birth death isLiving
  = formatYears_spec (given_year birth) (given_year death) isLiving.
Proof.
  unfold formatYears, formatYears_spec, truthy_num, given_year.
  destruct birth as [b|]; [|done].
  destruct (b =? 0); [done|]. cbn [negb tpl].
  destruct death as [d|]; [|done].
  by destruct (d =? 0).
Qed.

(** ** Propagation *)

Section propagation.
Context (personMap : gmap string TreeNode.t).
Context (familyMap : gmap string TreeFamily.t).

Lemma push_parent_intro gs gen x :
  x ≠ EmptyString → gs !! x = None →
  (x, gen) ∈ push_parent gs gen (Some x).
Proof.
  intros Hx Hgs. unfold push_parent, truthy_str, has.
  rewrite (proj2 (String.eqb_neq x EmptyString) Hx).
  rewrite bool_decide_eq_false_2 by (rewrite Hgs; intros [? ?]; done).
  by left.
Qed.

Lemma visit_families_intro gs gen famIds famId fam x g :
  famId ∈ famIds → familyMap !! famId = Some fam →
  (x, g) ∈ visit_family gs gen fam →
  (x, g) ∈ visit_families familyMap gs gen famIds.
Proof.
  intros Hin Hfam Hx. unfold visit_families.
  apply list_elem_of_bind. exists famId. by rewrite Hfam.
Qed.

(** The state after the iteration that takes [(h, g)] from the queue and
    finds [h] without a generation. *)
Lemma bfs_step_assign gs h g q person :
  gs !! h = None → personMap !! h = Some person →
  bfs_step personMap familyMap (State gs ((h, g) :: q))
  = Some (State (<[h:=g]> gs)
                (q ++ visit_families familyMap (<[h:=g]> gs) g
                        (TreeNode.families person))).
Proof.
  intros Hh Hp. unfold bfs_step, has. cbn [queue gens].
  rewrite bool_decide_eq_false_2 by (rewrite Hh; intros [? ?]; done).
  by rewrite Hp.
Qed.

(** What the traversal makes of a handle [x] that has no generation and no
    pair in the queue when the person [h] is taken from the queue: if the
    unions of [h] queue [x] under one generation only, this is the
    generation of [x]. *)
Lemma bfs_propagates gs h g q person x g' :
  gs !! h = None → personMap !! h = Some person →
  x ≠ h → gs !! x = None → x ∉ q.*1 →
  let pushed := visit_families familyMap (<[h:=g]> gs) g
                               (TreeNode.families person) in
  (x, g') ∈ pushed → (∀ g'', (x, g'') ∈ pushed → g'' = g') →
  bfs personMap familyMap (State gs ((h, g) :: q)) !! x = Some g'.
Proof.
  intros Hh Hp Hne Hx Hq pushed Hin Hall.
  rewrite bfs_unfold, (bfs_step_assign _ _ _ _ person) by done.
  apply bfs_first_wins; cbn [gens queue].
  - by rewrite lookup_insert_ne.
  - rewrite first_gen_app.
    rewrite (proj2 (first_gen_None x q) Hq).
    apply first_gen_constant; [|done].
    apply list_elem_of_fmap. by exists (x, g').
Qed.
End propagation.

(** C3 (propagation law): take the moment of the traversal at which the pair
    [(h, g)] leaves the queue and [h], a person of the input, has no
    generation yet, and let [fam] be one of the unions that the record of
    [h] lists in [families].  Then [h] has generation [g] in the result.
    Let [x] be another handle that no earlier path has reached: it has no
    generation and no pair in the queue at that moment.  If [x] is a
    recorded parent of [fam] and no union of [h] lists it as a child, [x]
    has generation [g] in the result; if [x] is a child of [fam] and no
    union of [h] records it as a parent, [x] has generation [g + 1]. *)
Theorem C3_propagation_law people families n gs h g q person famId fam x :
  let personMap := map_by_handle TreeNode.handle people in
  let familyMap := map_by_handle TreeFamily.handle families in
  let unions_of_h famId' fam' :=
    famId' ∈ TreeNode.families person ∧ familyMap !! famId' = Some fam' in
  bfs_iter personMap familyMap n (initial_state people families)
    = Some (State gs ((h, g) :: q)) →
  gs !! h = None →
  personMap !! h = Some person →
  unions_of_h famId fam →
  x ≠ h → gs !! x = None → x ∉ q.*1 →
  generations people families !! h = Some g
  ∧ ((TreeFamily.fatherHandle fam = Some x ∨ TreeFamily.motherHandle fam = Some x) →
     x ≠ EmptyString →
     (∀ famId' fam', unions_of_h famId' fam' → x ∉ TreeFamily.children fam') →
     generations people families !! x = Some g)
  ∧ (x ∈ TreeFamily.children fam →
     (∀ famId' fam', unions_of_h famId' fam' →
        TreeFamily.fatherHandle fam' ≠ Some x
        ∧ TreeFamily.motherHandle fam' ≠ Some x) →
     generations people families !! x = Some (g + 1)).
Proof.
  intros personMap familyMap unions_of_h Hrun Hh Hperson [Hfam1 Hfam2] Hne Hx Hq.
  assert (traversal people families
          = bfs personMap familyMap (State gs ((h, g) :: q))) as Htrav.
  { unfold traversal. by apply bfs_iter_result with n. }
  unfold generations. rewrite Htrav.
  assert (<[h:=g]> gs !! x = None) as Hx' by by rewrite lookup_insert_ne.
  split; [|split].
  - apply fallback_keeps, bfs_first_wins; [done|].
    cbn [queue first_gen]. by rewrite decide_True.
  - intros Hparent Hnonempty Hnochild. apply fallback_keeps.
    apply (bfs_propagates personMap familyMap gs h g q person x g);
      [done..| |].
    + apply (visit_families_intro familyMap _ _ _ famId fam); [done..|].
      unfold visit_family. rewrite !elem_of_app.
      destruct Hparent as [-> | ->]; [left | right; left];
        by apply push_parent_intro.
    + intros g'' (famId' & fam' & Hin' & Hfam' & Hvisit)%visit_families_elem.
      unfold visit_family in Hvisit. rewrite !elem_of_app in Hvisit.
      destruct Hvisit as [Hv | [Hv | Hv]].
      * by apply push_parent_elem in Hv as (_ & _ & _ & ->).
      * by apply push_parent_elem in Hv as (_ & _ & _ & ->).
      * apply push_children_elem in Hv as (Hc & _).
        by destruct (Hnochild famId' fam' (conj Hin' Hfam')).
  - intros Hchild Hnoparent. apply fallback_keeps.
    apply (bfs_propagates personMap familyMap gs h g q person x (g + 1));
      [done..| |].
    + apply (visit_families_intro familyMap _ _ _ famId fam); [done..|].
      unfold visit_family. rewrite !elem_of_app. right; right.
      by apply push_children_elem.
    + intros g'' (famId' & fam' & Hin' & Hfam' & Hvisit)%visit_families_elem.
      destruct (Hnoparent famId' fam' (conj Hin' Hfam')) as [Hf Hm].
      unfold visit_family in Hvisit. rewrite !elem_of_app in Hvisit.
      destruct Hvisit as [Hv | [Hv | Hv]].
      * by apply push_parent_elem in Hv as (? & _).
      * by apply push_parent_elem in Hv as (? & _).
      * by apply push_children_elem in Hv as (_ & _ & ->).
Qed.

Lemma C3_propagation_law_witness :
  generations Example3.people Example3.families !! "A"%string = Some 0
  ∧ generations Example3.people Example3.families !! "B"%string = Some 0
  ∧ generations Example3.people Example3.families !! "C"%string = Some (0 + 1).
Proof.
  assert (∀ x, x ≠ "A"%string →
    generations Example3.people Example3.families !! "A"%string = Some 0
    ∧ ((TreeFamily.fatherHandle Example3.F = Some x
        ∨ TreeFamily.motherHandle Example3.F = Some x) →
       x ≠ EmptyString →
       (∀ famId' fam',
          famId' ∈ TreeNode.families Example3.A
          ∧ map_by_handle TreeFamily.handle Example3.families !! famId'
            = Some fam' →
          x ∉ TreeFamily.children fam') →
       generations Example3.people Example3.families !! x = Some 0)
    ∧ (x ∈ TreeFamily.children Example3.F →
       (∀ famId' fam',
          famId' ∈ TreeNode.families Example3.A
          ∧ map_by_handle TreeFamily.handle Example3.families !! famId'
            = Some fam' →
          TreeFamily.fatherHandle fam' ≠ Some x
          ∧ TreeFamily.motherHandle fam' ≠ Some x) →
       generations Example3.people Example3.families !! x = Some (0 + 1)))
    as Hlaw.
  { intros x Hx.
    apply (C3_propagation_law Example3.people Example3.families
             0 ∅ "A" 0 [] Example3.A "F" Example3.F x).
    - reflexivity.
    - reflexivity.
    - reflexivity.
    - split; [by left | reflexivity].
    - exact Hx.
    - reflexivity.
    - apply not_elem_of_nil. }
  assert (∀ famId' fam',
            famId' ∈ TreeNode.families Example3.A
            ∧ map_by_handle TreeFamily.handle Example3.families !! famId'
              = Some fam' →
            fam' = Example3.F) as Hunion.
  { intros famId' fam' [Hin Hfam].
    apply list_elem_of_singleton in Hin as ->.
    vm_compute in Hfam. by injection Hfam as <-. }
  destruct (Hlaw "B"%string) as (HA & HB & _); [discriminate|].
  destruct (Hlaw "C"%string) as (_ & _ & HC); [discriminate|].
  split; [exact HA | split].
  - apply HB; [by right | discriminate |].
    intros famId' fam' ->%Hunion.
    cbn. intros Hc%list_elem_of_singleton. discriminate Hc.
  - apply HC; [by left |].
    intros famId' fam' ->%Hunion. cbn. split; discriminate.
Defined.

(** ** Person entries *)

(** C4 (spouse slot and children of a person with several unions), at an
    input on which the code departs from it: name and lifespan of the spouse
    are those of the last union and the children of both unions are listed in
    order, but the out-of-lineage note is the one that the first union left
    behind, although the spouse of the last union belongs to the lineage; the
    three values derived from the last union have no note. *)
Theorem C4_spouse_note_of_earlier_union :
  TreeNode.families Remarriage.P = ["F1"; "F2"]%string
  ∧ TreeNode.isPatrilineal Remarriage.S2 = true
  ∧ ∃ bp, entryOf "P" Remarriage.book = Some bp
      ∧ BookPerson.spouseName bp = Some "S2"%string
      ∧ BookPerson.spouseYears bp = Some "1905"%string
      ∧ BookPerson.spouseNote bp = Some NGOAI_TOC
      ∧ BookChild.name <$> BookPerson.children bp = ["K1"; "K2"]%string.
Proof.
  split; [reflexivity|]. split; [reflexivity|].
  eexists. split; [vm_compute; reflexivity|]. vm_compute. done.
Qed.

(** With two parent unions the names in the entry are those of the second
    union, not of the first. *)
Lemma C5_counterexample_last_parent_union :
  TreeNode.parentFamilies TwoParentUnions.X = ["PF1"; "PF2"]%string
  ∧ TreeFamily.fatherHandle TwoParentUnions.PF1 = Some (TreeNode.handle TwoParentUnions.Fa1)
  ∧ TreeFamily.motherHandle TwoParentUnions.PF1 = Some (TreeNode.handle TwoParentUnions.Mo1)
  ∧ ∃ bp, entryOf "X" TwoParentUnions.book = Some bp
      ∧ BookPerson.fatherName bp = Some "Father Two"%string
      ∧ BookPerson.motherName bp = Some "Mother Two"%string
      ∧ BookPerson.fatherName bp
        ≠ Some (TreeNode.displayName TwoParentUnions.Fa1)
      ∧ BookPerson.motherName bp
        ≠ Some (TreeNode.displayName TwoParentUnions.Mo1).
Proof.
  do 3 (split; [reflexivity|]).
  eexists. split; [vm_compute; reflexivity|]. vm_compute.
  repeat split; discriminate.
Qed.

Section parents.
Context (personMap : gmap string TreeNode.t).
Context (familyMap : gmap string TreeFamily.t).

Lemma parent_round_names acc pfId :
  parent_round personMap familyMap acc pfId
  = (from_option Some (fst acc) (name_in_union personMap familyMap TreeFamily.fatherHandle pfId),
     from_option Some (snd acc) (name_in_union personMap familyMap TreeFamily.motherHandle pfId)).
Proof.
  unfold parent_round, name_in_union.
  destruct (familyMap !! pfId) as [pf|]; cbn; [|by destruct acc].
  by destruct (resolve_person _ (TreeFamily.fatherHandle pf)),
             (resolve_person _ (TreeFamily.motherHandle pf)).
Qed.

Lemma last_name_silent f a pfIds :
  Forall (λ pfId, f pfId = None) pfIds → last_name f a pfIds = a.
Proof.
  unfold last_name. revert a.
  induction pfIds as [|pfId pfIds IH]; intros a Hall; [done|].
  apply Forall_cons in Hall as [Hnone Hall].
  cbn [foldl]. rewrite Hnone. by apply IH.
Qed.

Lemma last_name_last f a pre pfId post n :
  f pfId = Some n → Forall (λ pfId', f pfId' = None) post →
  last_name f a (pre ++ pfId :: post) = Some n.
Proof.
  intros Hn Hpost. unfold last_name. rewrite foldl_app. cbn [foldl].
  rewrite Hn. by apply last_name_silent.
Qed.

Lemma parent_rounds_names acc pfIds :
  foldl (parent_round personMap familyMap) acc pfIds
  = (last_name (name_in_union personMap familyMap TreeFamily.fatherHandle) (fst acc) pfIds,
     last_name (name_in_union personMap familyMap TreeFamily.motherHandle) (snd acc) pfIds).
Proof.
  unfold last_name. revert acc.
  induction pfIds as [|pfId pfIds IH]; intros acc; [by destruct acc|].
  cbn [foldl]. by rewrite IH, parent_round_names.
Qed.
End parents.

(** C5, amended (parent names with several parent unions): the loop over
    [parentFamilies] has no exit, so each of the two names comes from the
    LAST parent union in list order that records a parent in that slot whom
    the person map knows; the father's and the mother's name are settled
    independently of each other. *)
Theorem C5_parent_names_from_last_union
    (personMap : gmap string TreeNode.t) (familyMap : gmap string TreeFamily.t)
    (gs : gmap string Z) (p : TreeNode.t) pre pfId post pf :
  TreeNode.parentFamilies p = pre ++ pfId :: post →
  familyMap !! pfId = Some pf →
  (∀ father,
     resolve_person personMap (TreeFamily.fatherHandle pf) = Some father →
     (∀ pfId' pf', pfId' ∈ post → familyMap !! pfId' = Some pf' →
        resolve_person personMap (TreeFamily.fatherHandle pf') = None) →
     BookPerson.fatherName (buildBookPerson personMap familyMap gs p)
     = Some (TreeNode.displayName father))
  ∧ (∀ mother,
     resolve_person personMap (TreeFamily.motherHandle pf) = Some mother →
     (∀ pfId' pf', pfId' ∈ post → familyMap !! pfId' = Some pf' →
        resolve_person personMap (TreeFamily.motherHandle pf') = None) →
     BookPerson.motherName (buildBookPerson personMap familyMap gs p)
     = Some (TreeNode.displayName mother)).
Proof.
  intros Hlist Hpf.
  assert (∀ slot parent,
    resolve_person personMap (slot pf) = Some parent →
    (∀ pfId' pf', pfId' ∈ post → familyMap !! pfId' = Some pf' →
       resolve_person personMap (slot pf') = None) →
    last_name (name_in_union personMap familyMap slot) None
              (TreeNode.parentFamilies p)
    = Some (TreeNode.displayName parent)) as Hslot.
  { intros slot parent Hparent Hlater. rewrite Hlist.
    apply last_name_last.
    - unfold name_in_union. rewrite Hpf. cbn. by rewrite Hparent.
    - apply Forall_forall. intros pfId' Hin. unfold name_in_union.
      destruct (familyMap !! pfId') as [pf'|] eqn:E; [|done].
      cbn. by rewrite (Hlater pfId' pf' Hin E). }
  cbn [buildBookPerson BookPerson.fatherName BookPerson.motherName].
  unfold parentNames. rewrite parent_rounds_names. cbn [fst snd].
  split; intros parent Hparent Hlater; by apply Hslot.
Qed.

Lemma C5_parent_names_from_last_union_witness :
  let personMap := map_by_handle TreeNode.handle TwoParentUnions.people in
  let familyMap := map_by_handle TreeFamily.handle TwoParentUnions.families in
  let bp := buildBookPerson personMap familyMap ∅ TwoParentUnions.X in
  BookPerson.fatherName bp = Some "Father Two"%string
  ∧ BookPerson.motherName bp = Some "Mother Two"%string.
Proof.
  intros personMap familyMap bp.
  destruct (C5_parent_names_from_last_union personMap familyMap ∅
              TwoParentUnions.X ["PF1"%string] "PF2" [] TwoParentUnions.PF2)
    as [Hfather Hmother]; [reflexivity | reflexivity |].
  split.
  - apply (Hfather TwoParentUnions.Fa2); [reflexivity|].
    intros pfId' pf' Hin. by apply elem_of_nil in Hin.
  - apply (Hmother TwoParentUnions.Mo2); [reflexivity|].
    intros pfId' pf' Hin. by apply elem_of_nil in Hin.
Defined.

(** ** Sorting by a key *)

Section sort_by_key.
Context {A : Type} (key : A → Z).

Lemma js_insert_perm (c : A → A → Z) x l : js_insert c x l ≡ₚ x :: l.
Proof.
  induction l as [|y l IH]; [done|]. cbn [js_insert].
  destruct (c x y <=? 0); [done|]. rewrite IH. apply Permutation_swap.
Qed.

Lemma js_sort_perm (c : A → A → Z) l : js_sort c l ≡ₚ l.
Proof.
  induction l as [|x l IH]; [done|]. cbn [js_sort].
  by rewrite js_insert_perm, IH.
Qed.

Lemma js_insert_sorted x l :
  StronglySorted (key_le key) l → StronglySorted (key_le key) (js_insert (key_compare key) x l).
Proof.
  induction l as [|y l IH]; intros Hs; cbn [js_insert].
  - constructor; [constructor | constructor].
  - apply StronglySorted_inv in Hs as [Hl Hy].
    unfold key_compare at 1. destruct (Z.leb_spec (key x - key y) 0) as [Hle|Hgt].
    + constructor; [by constructor|]. constructor; [unfold key_le; lia|].
      eapply Forall_impl; [exact Hy|]. unfold key_le. intros z Hz. lia.
    + constructor; [by apply IH|].
      rewrite js_insert_perm. constructor; [unfold key_le; lia | done].
Qed.

Lemma js_sort_sorted l : StronglySorted (key_le key) (js_sort (key_compare key) l).
Proof.
  induction l as [|x l IH]; cbn [js_sort]; [constructor|].
  by apply js_insert_sorted.
Qed.

Lemma js_insert_stable k x l :
  List.filter (λ a, key a =? k) (js_insert (key_compare key) x l)
  = List.filter (λ a, key a =? k) (x :: l).
Proof.
  induction l as [|y l IH]; [done|]. cbn [js_insert].
  unfold key_compare at 1. destruct (Z.leb_spec (key x - key y) 0) as [Hle|Hgt]; [done|].
  cbn [List.filter] in *. rewrite IH.
  destruct (Z.eqb_spec (key x) k), (Z.eqb_spec (key y) k); try done. lia.
Qed.

Lemma js_sort_stable k l :
  List.filter (λ a, key a =? k) (js_sort (key_compare key) l)
  = List.filter (λ a, key a =? k) l.
Proof.
  induction l as [|x l IH]; [done|]. cbn [js_sort].
  rewrite js_insert_stable. cbn [List.filter]. by rewrite IH.
Qed.
End sort_by_key.

(** ** Chapters *)

Lemma chapter_round_elem bps g ch :
  ch ∈ chapter_round bps g →
  ch = BookChapter.mk g (genTitle g) (romanNumeral g) (chapterMembers bps g)
  ∧ chapterMembers bps g ≠ [].
Proof.
  unfold chapter_round. destruct (chapterMembers bps g) as [|bp members] eqn:E.
  - by intros ?%elem_of_nil.
  - by intros ->%list_elem_of_singleton.
Qed.

Lemma buildChapters_elem bps mg ch :
  ch ∈ buildChapters bps mg →
  BookChapter.members ch = chapterMembers bps (BookChapter.generation ch)
  ∧ BookChapter.members ch ≠ [].
Proof.
  unfold buildChapters. intros (g & Hch & _)%list_elem_of_bind.
  by apply chapter_round_elem in Hch as [-> Hne].
Qed.

Lemma bookPersons_elem personMap familyMap gs people bp :
  bp ∈ bookPersons personMap familyMap gs people →
  ∃ p, p ∈ people ∧ TreeNode.isPatrilineal p = true
       ∧ bp = buildBookPerson personMap familyMap gs p.
Proof.
  unfold bookPersons. intros (p & -> & Hin)%list_elem_of_fmap.
  apply list_elem_of_In, filter_In in Hin as [Hin Hpat].
  exists p. by rewrite list_elem_of_In.
Qed.

(** Everybody has generation 0 here; of the two patrilineal persons the root,
    whose entry has no index, stands in front of the hundredth child. *)
Lemma C6_counterexample_index_above_99 :
  (λ ch, (λ bp, (BookPerson.handle bp, BookPerson.childIndex bp))
         <$> BookChapter.members ch) <$> BookData.chapters HundredChildren.book
  = [[("R"%string, None); ("c100"%string, Some 100)]].
Proof. vm_compute. reflexivity. Qed.

(** C6, amended (chapter assembly): every chapter of the book has a
    patrilineal person of its generation, so a generation without
    patrilineal members has no chapter; the members of a chapter are the
    entries of that generation, in ascending order of the key that is the
    birth-order index, or 99 for an entry without index: such an entry
    stands after every entry with an index below 99 (and in front of those
    with an index above 99); entries with equal keys keep the order of the
    input. *)
Theorem C6_chapter_assembly localeCompare today people families familyName ch :
  let gs := generations people families in
  let bps := bookPersons (map_by_handle TreeNode.handle people)
                         (map_by_handle TreeFamily.handle families) gs people in
  let key bp := default 99 (BookPerson.childIndex bp) in
  let of_generation :=
    List.filter (λ bp, BookPerson.generation bp =? BookChapter.generation ch) bps in
  ch ∈ BookData.chapters
         (generateBookData localeCompare today people families familyName) →
  (∃ p, p ∈ people ∧ TreeNode.isPatrilineal p = true
        ∧ gs !! TreeNode.handle p = Some (BookChapter.generation ch))
  ∧ BookChapter.members ch ≡ₚ of_generation
  ∧ StronglySorted (λ a b, key a ≤ key b) (BookChapter.members ch)
  ∧ ∀ k, List.filter (λ bp, key bp =? k) (BookChapter.members ch)
         = List.filter (λ bp, key bp =? k) of_generation.
Proof.
  intros gs bps key of_generation Hch.
  cbn [generateBookData BookData.chapters] in Hch.
  apply buildChapters_elem in Hch as [Hmembers Hne].
  fold gs bps in Hmembers. unfold chapterMembers in Hmembers.
  fold of_generation in Hmembers.
  assert (BookChapter.members ch ≡ₚ of_generation) as Hperm.
  { rewrite Hmembers. apply js_sort_perm. }
  split; [|split; [done|split]].
  - destruct (BookChapter.members ch) as [|bp members] eqn:E; [done|].
    assert (bp ∈ of_generation) as Hbp by (rewrite <- Hperm; by left).
    apply list_elem_of_In, filter_In in Hbp as [Hbp Hgen].
    apply list_elem_of_In, bookPersons_elem in Hbp as (p & Hp & Hpat & ->).
    exists p. split; [done|]. split; [done|].
    cbn [buildBookPerson BookPerson.generation] in Hgen.
    apply Z.eqb_eq in Hgen. rewrite <- Hgen.
    fold gs. destruct (generations_total people families p Hp) as [g Hg].
    fold gs in Hg. by rewrite Hg.
  - rewrite Hmembers. apply (js_sort_sorted sortKey).
  - intros k. rewrite Hmembers. apply (js_sort_stable sortKey).
Qed.

Lemma C6_chapter_assembly_witness :
  ∃ ch,
    BookData.chapters
      (generateBookData byteCompare aDate Example3.people Example3.families None)
      !! 1%nat = Some ch
    ∧ (∃ p, p ∈ Example3.people ∧ TreeNode.isPatrilineal p = true
            ∧ generations Example3.people Example3.families !! TreeNode.handle p
              = Some (BookChapter.generation ch))
    ∧ StronglySorted
        (λ a b, default 99 (BookPerson.childIndex a)
                ≤ default 99 (BookPerson.childIndex b))
        (BookChapter.members ch).
Proof.
  eexists. split; [vm_compute; reflexivity|].
  match goal with
  | |- (∃ p, _ ∧ _ ∧ _ = Some (BookChapter.generation ?ch)) ∧ _ =>
      destruct (C6_chapter_assembly byteCompare aDate Example3.people
                  Example3.families None ch) as (Hp & _ & Hs & _)
  end.
  - vm_compute. apply list_elem_of_further, list_elem_of_here.
  - split; [exact Hp | exact Hs].
Defined.

(** ** Two runs *)

(** Two runs on the same input on different days give different books. *)
Lemma C7_counterexample_export_date :
  generateBookData byteCompare aDate Example3.people Example3.families None
  ≠ generateBookData byteCompare anotherDate Example3.people Example3.families None.
Proof.
  intros Heq. apply (f_equal BookData.exportDate) in Heq.
  cbn [generateBookData BookData.exportDate] in Heq. discriminate Heq.
Qed.

(** * Further properties of the generator *)

(** ** The maps by handle *)

Lemma map_by_handle_acc {A} (key : A → string) (xs : list A) (m : gmap string A) k :
  foldl (λ m x, <[key x := x]> m) m xs !! k
  = match last (List.filter (λ x, bool_decide (key x = k)) xs) with
    | Some x => Some x
    | None => m !! k
    end.
Proof.
  revert m. induction xs as [|x xs IH]; intros m; [done|].
  cbn [foldl List.filter]. rewrite IH. case_bool_decide as Hk.
  - destruct (List.filter _ xs) as [|y ys].
    + cbn [last]. rewrite <- Hk. by rewrite lookup_insert_eq.
    + rewrite last_cons_cons. destruct (last (y :: ys)) eqn:E; [done|].
      by apply last_None in E.
  - destruct (last (List.filter _ xs)); [done|]. by rewrite lookup_insert_ne.
Qed.

Lemma map_by_handle_last {A} (key : A → string) (xs : list A) k :
  map_by_handle key xs !! k = last (List.filter (λ x, bool_decide (key x = k)) xs).
Proof.
  unfold map_by_handle. rewrite map_by_handle_acc, lookup_empty.
  by destruct (last _).
Qed.

Lemma map_by_handle_elem {A} (key : A → string) (xs : list A) k x :
  map_by_handle key xs !! k = Some x → x ∈ xs ∧ key x = k.
Proof.
  rewrite map_by_handle_last. intros Hl.
  apply last_Some_elem_of, list_elem_of_In, filter_In in Hl as [Hin Hk].
  split; [by apply list_elem_of_In | by apply bool_decide_eq_true in Hk].
Qed.

Lemma map_by_handle_None {A} (key : A → string) (xs : list A) k :
  map_by_handle key xs !! k = None ↔ k ∉ key <$> xs.
Proof.
  rewrite map_by_handle_last, last_None. split.
  - intros Hnil (x & -> & Hin)%list_elem_of_fmap.
    assert (In x (List.filter (λ y, bool_decide (key y = key x)) xs)) as Hx.
    { apply filter_In. split; [by apply list_elem_of_In|].
      by apply bool_decide_eq_true. }
    by rewrite Hnil in Hx.
  - intros Hk. destruct (List.filter _ xs) as [|x l] eqn:E; [done|].
    assert (In x (List.filter (λ y, bool_decide (key y = k)) xs)) as Hx
      by (rewrite E; by left).
    apply filter_In in Hx as [Hin Hkx]. apply bool_decide_eq_true in Hkx.
    destruct Hk. apply list_elem_of_fmap. exists x.
    by rewrite list_elem_of_In.
Qed.

Lemma filter_other_keys {A} (key : A → string) (xs : list A) k :
  k ∉ key <$> xs → List.filter (λ y, bool_decide (key y = k)) xs = [].
Proof.
  intros Hk. apply last_None. rewrite <- map_by_handle_last.
  by apply map_by_handle_None.
Qed.

(** X1 (the maps by handle): the person map and the family map return, under
    a handle, the LAST record of the input with that handle; a record that
    is found is a record of the input and has the handle asked for, and a
    handle is not found exactly when no record of the input has it.  With
    handles that are unique in the input every record is found under its
    own handle. *)
Theorem X1_map_by_handle_lookup {A} (key : A → string) (xs : list A) :
  (∀ k x, map_by_handle key xs !! k = Some x → x ∈ xs ∧ key x = k)
  ∧ (∀ k, map_by_handle key xs !! k = None ↔ k ∉ key <$> xs)
  ∧ (∀ pre x post, xs = pre ++ x :: post → key x ∉ key <$> post →
       map_by_handle key xs !! key x = Some x)
  ∧ (NoDup (key <$> xs) → ∀ x, x ∈ xs → map_by_handle key xs !! key x = Some x).
Proof.
  assert (∀ pre x post, xs = pre ++ x :: post → key x ∉ key <$> post →
            map_by_handle key xs !! key x = Some x) as Hlast.
  { intros pre x post -> Hpost. rewrite map_by_handle_last.
    rewrite List.filter_app. cbn [List.filter].
    rewrite bool_decide_eq_true_2 by done.
    rewrite (filter_other_keys key post) by done. apply last_snoc. }
  split; [apply map_by_handle_elem|]. split; [apply map_by_handle_None|].
  split; [exact Hlast|].
  intros Hnd x (pre & post & ->)%list_elem_of_split.
  apply (Hlast pre x post); [done|].
  rewrite fmap_app, fmap_cons in Hnd.
  apply NoDup_app in Hnd as (_ & _ & Hnd). by apply NoDup_cons in Hnd as [? _].
Qed.

Lemma X1_map_by_handle_lookup_witness :
  map_by_handle TreeNode.handle Example3.people !! "B"%string = Some Example3.B.
Proof.
  destruct (X1_map_by_handle_lookup TreeNode.handle Example3.people)
    as (_ & _ & _ & Hunique).
  apply (Hunique ltac:(vm_compute; repeat constructor;
                       rewrite ?elem_of_cons, ?elem_of_nil; intuition discriminate)
                 Example3.B).
  apply elem_of_cons. right. by left.
Defined.

(** ** The loop over the unions of a person *)

Section family_loop.
Context (personMap : gmap string TreeNode.t).
Context (familyMap : gmap string TreeFamily.t).

Lemma family_round_fields p acc famId :
  family_round personMap familyMap p acc famId
  = SpouseAcc
      (from_option (λ s, Some (TreeNode.displayName s)) (acc_spouseName acc)
                   (spouse_in personMap familyMap p famId))
      (from_option (λ s, Some (lifespan s)) (acc_spouseYears acc)
                   (spouse_in personMap familyMap p famId))
      (from_option (λ s, if outsider s then Some NGOAI_TOC else acc_spouseNote acc)
                   (acc_spouseNote acc) (spouse_in personMap familyMap p famId))
      (acc_children acc ++ children_in personMap familyMap famId).
Proof.
  unfold family_round, spouse_in, children_in.
  destruct (familyMap !! famId) as [fam|]; cbn.
  - by destruct (resolve_person personMap (spouseHandle p fam)).
  - destruct acc. cbn. by rewrite app_nil_r.
Qed.

Lemma family_rounds_fields p famIds :
  let spouses := omap (spouse_in personMap familyMap p) famIds in
  foldl (family_round personMap familyMap p) (SpouseAcc None None None []) famIds
  = SpouseAcc (TreeNode.displayName <$> last spouses)
              (lifespan <$> last spouses)
              (if existsb outsider spouses then Some NGOAI_TOC else None)
              (famIds ≫= children_in personMap familyMap).
Proof.
  induction famIds as [|famId famIds IH] using rev_ind; [done|].
  cbn zeta in *. rewrite foldl_app. cbn [foldl]. rewrite IH.
  rewrite family_round_fields. cbn [acc_spouseName acc_spouseYears
    acc_spouseNote acc_children].
  rewrite omap_app, bind_app. cbn [omap list_omap mbind list_bind].
  rewrite app_nil_r.
  destruct (spouse_in personMap familyMap p famId) as [s|]; cbn [from_option].
  - rewrite last_snoc, existsb_app. cbn [existsb fmap option_fmap option_map].
    rewrite orb_false_r.
    destruct (outsider s); [by rewrite orb_true_r | by rewrite orb_false_r].
  - by rewrite app_nil_r.
Qed.
End family_loop.

(** X2 (spouse slot and children, in general): in the entry of a person the
    name and the lifespan of the spouse are those of the LAST spouse that the
    unions of the person resolve to, the out-of-lineage note is present as
    soon as ANY of these spouses, not only the last, is outside the lineage,
    and the children are those of all unions, union by union; a person whose
    unions resolve to no spouse has none of the three spouse fields. *)
Theorem X2_spouse_slot_and_children
    (personMap : gmap string TreeNode.t) (familyMap : gmap string TreeFamily.t)
    (gs : gmap string Z) (p : TreeNode.t) :
  let bp := buildBookPerson personMap familyMap gs p in
  let spouses := resolved_spouses personMap familyMap p in
  BookPerson.spouseName bp = TreeNode.displayName <$> last spouses
  ∧ BookPerson.spouseYears bp = lifespan <$> last spouses
  ∧ BookPerson.spouseNote bp
    = (if existsb outsider spouses then Some NGOAI_TOC else None)
  ∧ BookPerson.children bp = union_children personMap familyMap p.
Proof.
  cbn zeta. cbn [buildBookPerson BookPerson.spouseName BookPerson.spouseYears
                 BookPerson.spouseNote BookPerson.children].
  unfold spouseAndChildren.
  pose proof (family_rounds_fields personMap familyMap p (TreeNode.families p))
    as Hloop. cbn zeta in Hloop. rewrite Hloop.
  done.
Qed.

(** ** The birth-order index *)

Lemma indexOf_Some x xs i :
  indexOf x xs = Some i ↔ xs !! i = Some x ∧ ∀ j, (j < i)%nat → xs !! j ≠ Some x.
Proof.
  unfold indexOf. rewrite fmap_Some. split.
  - intros ([i' y] & Hfind & ->). apply list_find_Some in Hfind as (Hi & -> & Hj).
    split; [done|]. intros j Hlt Hx. by apply (Hj j x).
  - intros [Hi Hj]. exists (i, x). split; [|done].
    apply list_find_Some. split; [done|]. split; [done|].
    intros j y Hy Hlt ->. by apply (Hj j).
Qed.

Lemma indexOf_None x xs : indexOf x xs = None ↔ x ∉ xs.
Proof.
  unfold indexOf. rewrite fmap_None, list_find_None, Forall_forall. split.
  - intros Hall Hin. by apply (Hall x).
  - intros Hx y Hy ->. done.
Qed.

(** X3 (birth-order index): the index of an entry is read from the FIRST
    parent union of the person only.  When it is present, it is the 1-based
    position of the first occurrence of the handle among the children of that
    union; it is absent exactly when the person has no parent union, the
    family map does not know the first one, or its children do not list the
    person. *)
Theorem X3_childIndex_position
    (familyMap : gmap string TreeFamily.t) (p : TreeNode.t) :
  (∀ i, childIndexOf familyMap p = Some i →
     ∃ pfId rest pf,
       TreeNode.parentFamilies p = pfId :: rest
       ∧ familyMap !! pfId = Some pf
       ∧ 1 ≤ i ≤ Z.of_nat (length (TreeFamily.children pf))
       ∧ TreeFamily.children pf !! Z.to_nat (i - 1) = Some (TreeNode.handle p)
       ∧ ∀ j, (j < Z.to_nat (i - 1))%nat →
              TreeFamily.children pf !! j ≠ Some (TreeNode.handle p))
  ∧ (childIndexOf familyMap p = None ↔
       TreeNode.parentFamilies p = []
       ∨ ∃ pfId rest, TreeNode.parentFamilies p = pfId :: rest
           ∧ match familyMap !! pfId with
             | Some pf => TreeNode.handle p ∉ TreeFamily.children pf
             | None => True
             end).
Proof.
  unfold childIndexOf. split.
  - intros i Hi. destruct (TreeNode.parentFamilies p) as [|pfId rest]; [done|].
    exists pfId, rest. destruct (familyMap !! pfId) as [pf|]; [|done].
    exists pf. cbn in Hi.
    destruct (indexOf _ _) as [idx|] eqn:E; [|done]. cbn in Hi.
    injection Hi as <-. apply indexOf_Some in E as [Hidx Hfirst].
    pose proof (lookup_lt_Some _ _ _ Hidx) as Hlt.
    replace (Z.to_nat (Z.of_nat idx + 1 - 1)) with idx by lia.
    repeat split; [lia | lia | done | done].
  - destruct (TreeNode.parentFamilies p) as [|pfId rest].
    + split; [by left | done].
    + destruct (familyMap !! pfId) as [pf|] eqn:Efam; cbn.
      * destruct (indexOf _ _) as [idx|] eqn:E; cbn.
        -- split; [done|]. intros [? | (? & ? & [= <- <-] & Hnot)]; [done|].
           rewrite Efam in Hnot. apply indexOf_Some in E as [Hidx _].
           destruct Hnot. by eapply list_elem_of_lookup_2.
        -- split; [|done]. intros _. right. exists pfId, rest. split; [done|].
           rewrite Efam. by apply indexOf_None.
      * split; [|done]. intros _. right. exists pfId, rest. by rewrite Efam.
Qed.

Lemma X3_childIndex_position_witness :
  ∃ pfId rest pf,
    TreeNode.parentFamilies Example3.C = pfId :: rest
    ∧ map_by_handle TreeFamily.handle Example3.families !! pfId = Some pf
    ∧ 1 ≤ 1 ≤ Z.of_nat (length (TreeFamily.children pf))
    ∧ TreeFamily.children pf !! Z.to_nat (1 - 1) = Some (TreeNode.handle Example3.C)
    ∧ ∀ j, (j < Z.to_nat (1 - 1))%nat →
           TreeFamily.children pf !! j ≠ Some (TreeNode.handle Example3.C).
Proof.
  apply (proj1 (X3_childIndex_position
                  (map_by_handle TreeFamily.handle Example3.families)
                  Example3.C) 1).
  reflexivity.
Defined.

(** ** The largest generation *)

Lemma maxGen_nonneg (gs : gmap string Z) : 0 ≤ maxGen gs.
Proof.
  unfold maxGen. induction ((map_to_list gs).*2) as [|g l IH]; cbn [foldr]; lia.
Qed.

Lemma foldr_max_ge (l : list Z) g : g ∈ l → g ≤ foldr Z.max 0 l.
Proof.
  induction l as [|g' l IH]; [by intros ?%elem_of_nil|].
  cbn [foldr]. intros [->|Hin]%elem_of_cons; [lia|].
  specialize (IH Hin). lia.
Qed.

Lemma foldr_max_attained (l : list Z) :
  foldr Z.max 0 l = 0 ∨ foldr Z.max 0 l ∈ l.
Proof.
  induction l as [|g l IH]; [by left|]. cbn [foldr].
  destruct (Z.max_spec g (foldr Z.max 0 l)) as [[_ ->]|[_ ->]].
  - destruct IH as [IH|IH]; [by left | right; by right].
  - right. by left.
Qed.

Lemma maxGen_ge (gs : gmap string Z) h g : gs !! h = Some g → g ≤ maxGen gs.
Proof.
  intros Hg. apply foldr_max_ge. apply list_elem_of_fmap. exists (h, g).
  split; [done|]. by apply elem_of_map_to_list.
Qed.

(** X4 (number of generations): [totalGenerations] is at least 1, it exceeds
    every generation of the map, and it is 1 or one more than a generation
    that some handle has: the largest generation plus one, and 1 when the map
    is empty or holds no positive generation. *)
Theorem X4_totalGenerations localeCompare today people families familyName :
  let book := generateBookData localeCompare today people families familyName in
  let gs := generations people families in
  1 ≤ BookData.totalGenerations book
  ∧ (∀ h g, gs !! h = Some g → g < BookData.totalGenerations book)
  ∧ (BookData.totalGenerations book = 1
     ∨ ∃ h, gs !! h = Some (BookData.totalGenerations book - 1)).
Proof.
  cbn zeta. cbn [generateBookData BookData.totalGenerations].
  pose proof (maxGen_nonneg (generations people families)) as Hnn.
  split; [lia|]. split.
  - intros h g Hg%maxGen_ge. lia.
  - destruct (foldr_max_attained ((map_to_list (generations people families)).*2))
      as [H0|Hin]; fold (maxGen (generations people families)) in *.
    + left. lia.
    + right. apply list_elem_of_fmap in Hin as ([h g] & Hg & Hin).
      cbn in Hg. exists h. apply elem_of_map_to_list in Hin.
      rewrite Hin. f_equal. lia.
Qed.

(** ** The entries and the chapters *)

Lemma bookPersons_generation personMap familyMap people families bp :
  bp ∈ bookPersons personMap familyMap (generations people families) people →
  BookPerson.generation bp ≤ maxGen (generations people families).
Proof.
  intros (p & Hp & _ & ->)%bookPersons_elem.
  cbn [buildBookPerson BookPerson.generation].
  destruct (generations_total people families p Hp) as [g Hg].
  rewrite Hg. cbn. by eapply maxGen_ge.
Qed.

(** X5 (one entry per patrilineal person): the entries of the book follow
    the patrilineal people of the input one by one, in the order of the
    input; every entry carries the handle and the name of its person and the
    generation that the map holds for the person, so the default [?? 0] of
    the code is never used for a person of the input. *)
Theorem X5_entries_follow_people people families :
  let gs := generations people families in
  let bps := bookPersons (map_by_handle TreeNode.handle people)
                         (map_by_handle TreeFamily.handle families) gs people in
  Forall2 (λ p bp,
             BookPerson.handle bp = TreeNode.handle p
             ∧ BookPerson.name bp = TreeNode.displayName p
             ∧ BookPerson.isPatrilineal bp = true
             ∧ gs !! TreeNode.handle p = Some (BookPerson.generation bp))
          (List.filter TreeNode.isPatrilineal people) bps.
Proof.
  cbn zeta. unfold bookPersons. apply Forall2_fmap_r, Forall_Forall2_diag.
  apply Forall_forall. intros p Hp.
  apply list_elem_of_In, filter_In in Hp as [Hp Hpat].
  apply list_elem_of_In in Hp.
  destruct (generations_total people families p Hp) as [g Hg].
  unfold compose.
  cbn [buildBookPerson BookPerson.handle BookPerson.name
       BookPerson.isPatrilineal BookPerson.generation].
  rewrite Hg. by repeat split.
Qed.

Lemma chapter_round_members bps g :
  chapter_round bps g ≫= BookChapter.members = chapterMembers bps g.
Proof.
  unfold chapter_round. destruct (chapterMembers bps g) as [|bp l] eqn:E; [done|].
  cbn. by rewrite app_nil_r.
Qed.

Lemma chapterMembers_perm bps g :
  chapterMembers bps g
  ≡ₚ List.filter (λ bp, BookPerson.generation bp =? g) bps.
Proof. apply js_sort_perm. Qed.

Lemma members_upto bps (n : nat) :
  (Z.of_nat <$> seq 0 n) ≫= chapterMembers bps
  ≡ₚ List.filter (λ bp, (0 <=? BookPerson.generation bp)
                        && (BookPerson.generation bp <? Z.of_nat n)) bps.
Proof.
  induction n as [|n IH].
  - cbn [seq fmap list_fmap mbind list_bind].
    induction bps as [|bp bps IHb]; [done|]. cbn [List.filter].
    destruct (Z.leb_spec 0 (BookPerson.generation bp)),
             (Z.ltb_spec (BookPerson.generation bp) (Z.of_nat 0));
      cbn [andb]; first [done | lia].
  - rewrite seq_S, fmap_app, bind_app, IH. cbn [fmap list_fmap mbind list_bind].
    rewrite app_nil_r, chapterMembers_perm. cbn [Nat.add].
    clear IH. induction bps as [|bp bps IHb]; [done|]. cbn [List.filter].
    destruct (Z.eqb_spec (BookPerson.generation bp) (Z.of_nat n)),
             (Z.leb_spec 0 (BookPerson.generation bp)),
             (Z.ltb_spec (BookPerson.generation bp) (Z.of_nat n)),
             (Z.ltb_spec (BookPerson.generation bp) (Z.of_nat (S n)));
      cbn [andb app]; try lia.
    + rewrite <- IHb. by rewrite Permutation_middle.
    + by rewrite IHb.
    + done.
    + done.
Qed.

Lemma buildChapters_members bps mg :
  buildChapters bps mg ≫= BookChapter.members
  = (Z.of_nat <$> seq 0 (S (Z.to_nat mg))) ≫= chapterMembers bps.
Proof.
  unfold buildChapters.
  induction (Z.of_nat <$> seq 0 (S (Z.to_nat mg))) as [|g l IH]; [done|].
  rewrite !bind_cons, bind_app, IH. by rewrite chapter_round_members.
Qed.

Lemma chapters_partition localeCompare today people families familyName :
  BookData.chapters
    (generateBookData localeCompare today people families familyName)
  ≫= BookChapter.members
  ≡ₚ List.filter (λ bp, 0 <=? BookPerson.generation bp)
       (bookPersons (map_by_handle TreeNode.handle people)
                    (map_by_handle TreeFamily.handle families)
                    (generations people families) people).
Proof.
  cbn zeta. cbn [generateBookData BookData.chapters].
  rewrite buildChapters_members, members_upto.
  pose proof (maxGen_nonneg (generations people families)) as Hnn.
  assert (Forall (λ bp, BookPerson.generation bp
                        ≤ maxGen (generations people families))
                 (bookPersons (map_by_handle TreeNode.handle people)
                              (map_by_handle TreeFamily.handle families)
                              (generations people families) people)) as Hall.
  { apply Forall_forall. intros bp Hbp. by eapply bookPersons_generation. }
  induction Hall as [|bp l Hbp _ IH]; [done|]. cbn [List.filter].
  destruct (Z.ltb_spec (BookPerson.generation bp)
              (Z.of_nat (S (Z.to_nat (maxGen (generations people families))))));
    [|lia].
  rewrite andb_true_r. by destruct (0 <=? BookPerson.generation bp); rewrite IH.
Qed.

(** X6 (the chapters partition the entries): taken together, the members of
    the chapters are the entries with a generation of 0 or more, each one
    exactly once; an entry with a negative generation, which only a negative
    hint can produce, is in no chapter. *)
Theorem X6_chapters_partition localeCompare today people families familyName :
  let book := generateBookData localeCompare today people families familyName in
  let bps := bookPersons (map_by_handle TreeNode.handle people)
                         (map_by_handle TreeFamily.handle families)
                         (generations people families) people in
  BookData.chapters book ≫= BookChapter.members
  ≡ₚ List.filter (λ bp, 0 <=? BookPerson.generation bp) bps.
Proof. apply chapters_partition. Qed.

Lemma chapters_upto bps (n : nat) :
  let chs := (Z.of_nat <$> seq 0 n) ≫= chapter_round bps in
  StronglySorted Z.lt (BookChapter.generation <$> chs)
  ∧ Forall (λ ch, 0 ≤ BookChapter.generation ch < Z.of_nat n
                  ∧ BookChapter.title ch = genTitle (BookChapter.generation ch)
                  ∧ BookChapter.romanNumeral ch
                    = romanNumeral (BookChapter.generation ch)) chs.
Proof.
  induction n as [|n [IHs IHf]]; cbn zeta in *.
  - split; constructor.
  - rewrite seq_S, fmap_app, bind_app. cbn [fmap list_fmap mbind list_bind Nat.add].
    rewrite app_nil_r.
    assert (Forall (λ ch, BookChapter.generation ch = Z.of_nat n
                          ∧ BookChapter.title ch = genTitle (Z.of_nat n)
                          ∧ BookChapter.romanNumeral ch = romanNumeral (Z.of_nat n))
                   (chapter_round bps (Z.of_nat n))) as Hround.
    { apply Forall_forall. intros ch [-> _]%chapter_round_elem. done. }
    split.
    + rewrite fmap_app. apply StronglySorted_app. split; [|split; [done|]].
      * intros g1 g2 (ch1 & -> & Hch1)%list_elem_of_fmap
                     (ch2 & -> & Hch2)%list_elem_of_fmap.
        apply (proj1 (Forall_forall _ _) IHf) in Hch1.
        apply (proj1 (Forall_forall _ _) Hround) in Hch2. lia.
      * unfold chapter_round. destruct (chapterMembers bps (Z.of_nat n));
          repeat constructor.
    + apply Forall_app. split.
      * eapply Forall_impl; [exact IHf|]. cbn. intros ch ?. split; [lia|tauto].
      * eapply Forall_impl; [exact Hround|]. cbn. intros ch (-> & -> & ->).
        split; [lia|done].
Qed.

(** X7 (order of the chapters): the chapters stand in strictly ascending
    order of generation, so no generation has two chapters; the generation
    of a chapter lies between 0 and the largest generation of the map, and
    the title and the ordinal of a chapter are those of its generation. *)
Theorem X7_chapters_ascending localeCompare today people families familyName :
  let book := generateBookData localeCompare today people families familyName in
  StronglySorted Z.lt (BookChapter.generation <$> BookData.chapters book)
  ∧ Forall (λ ch, 0 ≤ BookChapter.generation ch < BookData.totalGenerations book
                  ∧ BookChapter.title ch = genTitle (BookChapter.generation ch)
                  ∧ BookChapter.romanNumeral ch
                    = romanNumeral (BookChapter.generation ch))
           (BookData.chapters book).
Proof.
  cbn zeta. cbn [generateBookData BookData.chapters BookData.totalGenerations].
  unfold buildChapters.
  pose proof (maxGen_nonneg (generations people families)) as Hnn.
  match goal with |- context [chapter_round ?bps] =>
    destruct (chapters_upto bps (S (Z.to_nat (maxGen (generations people families)))))
      as [Hs Hf] end.
  split; [exact Hs|]. eapply Forall_impl; [exact Hf|].
  cbn. intros ch (? & ? & ?). split; [lia|done].
Qed.

(** ** The name index *)

(** X8 (the index covers everybody): the name index has exactly one entry for
    every person of the input, patrilineal or not, with the name and the
    lineage flag of the person and the generation that the map holds for the
    person; its length is [totalMembers]. *)
Theorem X8_nameIndex_covers_people
    localeCompare today people families familyName :
  let book := generateBookData localeCompare today people families familyName in
  (∃ entries,
     BookData.nameIndex book ≡ₚ entries
     ∧ Forall2 (λ p e,
                  NameEntry.name e = TreeNode.displayName p
                  ∧ NameEntry.isPatrilineal e = TreeNode.isPatrilineal p
                  ∧ generations people families !! TreeNode.handle p
                    = Some (NameEntry.generation e))
               people entries)
  ∧ Z.of_nat (length (BookData.nameIndex book)) = BookData.totalMembers book.
Proof.
  cbn zeta. cbn [generateBookData BookData.nameIndex BookData.totalMembers].
  unfold buildNameIndex. split.
  - eexists. split; [apply js_sort_perm|].
    apply Forall2_fmap_r, Forall_Forall2_diag, Forall_forall. intros p Hp.
    destruct (generations_total people families p Hp) as [g Hg].
    unfold compose. cbn [NameEntry.name NameEntry.isPatrilineal NameEntry.generation].
    rewrite Hg. by repeat split.
  - by rewrite js_sort_perm, length_fmap.
Qed.

Section sort_by_comparator.
Context {A : Type} (cmp : A → A → Z).
Context (cmp_total : ∀ a b, cmp a b ≤ 0 ∨ cmp b a ≤ 0).
Context (cmp_trans : ∀ a b c, cmp a b ≤ 0 → cmp b c ≤ 0 → cmp a c ≤ 0).

Lemma js_insert_ordered x l :
  StronglySorted (λ a b, cmp a b ≤ 0) l →
  StronglySorted (λ a b, cmp a b ≤ 0) (js_insert cmp x l).
Proof.
  induction l as [|y l IH]; intros Hs; cbn [js_insert].
  - repeat constructor.
  - apply StronglySorted_inv in Hs as [Hl Hy].
    destruct (Z.leb_spec (cmp x y) 0) as [Hle|Hgt].
    + constructor; [by constructor|]. constructor; [done|].
      eapply Forall_impl; [exact Hy|]. cbn. intros z Hz. by eapply cmp_trans.
    + constructor; [by apply IH|].
      rewrite js_insert_perm. constructor; [|done].
      destruct (cmp_total x y); [lia | done].
Qed.

Lemma js_sort_ordered l : StronglySorted (λ a b, cmp a b ≤ 0) (js_sort cmp l).
Proof.
  induction l as [|x l IH]; cbn [js_sort]; [constructor|].
  by apply js_insert_ordered.
Qed.
End sort_by_comparator.

(** X9 (the index is sorted): when the collation is a total preorder (of two
    names one is not after the other, and the order is transitive), every
    entry of the name index stands in front of the entries whose names are
    not before its own. *)
Theorem X9_nameIndex_sorted
    (localeCompare : string → string → Z) today people families familyName :
  (∀ a b, localeCompare a b ≤ 0 ∨ localeCompare b a ≤ 0) →
  (∀ a b c, localeCompare a b ≤ 0 → localeCompare b c ≤ 0 →
            localeCompare a c ≤ 0) →
  StronglySorted
    (λ a b, localeCompare (NameEntry.name a) (NameEntry.name b) ≤ 0)
    (BookData.nameIndex
       (generateBookData localeCompare today people families familyName)).
Proof.
  intros Htotal Htrans.
  cbn [generateBookData BookData.nameIndex]. unfold buildNameIndex.
  apply (js_sort_ordered
           (λ a b, localeCompare (NameEntry.name a) (NameEntry.name b))).
  - intros a b. apply Htotal.
  - intros a b c. apply Htrans.
Qed.

Lemma X9_nameIndex_sorted_witness :
  StronglySorted
    (λ a b, lengthCompare (NameEntry.name a) (NameEntry.name b) ≤ 0)
    (BookData.nameIndex
       (generateBookData lengthCompare aDate TwoParentUnions.people
                         TwoParentUnions.families None)).
Proof.
  apply X9_nameIndex_sorted.
  - intros a b. unfold lengthCompare. lia.
  - intros a b c. unfold lengthCompare. lia.
Defined.

(** ** Inputs without patrilineal people *)

Lemma chapters_no_entries mg : buildChapters [] mg = [].
Proof.
  unfold buildChapters.
  induction (Z.of_nat <$> seq 0 (S (Z.to_nat mg))) as [|g l IH]; [done|].
  by rewrite bind_cons, IH.
Qed.

(** X10 (no patrilineal person, no chapter): when no person of the input is
    patrilineal, the input without people included, the book has no chapter
    and counts no patrilineal member, and the index still lists every
    person. *)
Theorem X10_no_patrilineal_no_chapters
    localeCompare today people families familyName :
  Forall (λ p, TreeNode.isPatrilineal p = false) people →
  let book := generateBookData localeCompare today people families familyName in
  BookData.chapters book = []
  ∧ BookData.totalPatrilineal book = 0
  ∧ length (BookData.nameIndex book) = length people.
Proof.
  intros Hnone.
  assert (List.filter TreeNode.isPatrilineal people = []) as Hfilter.
  { induction Hnone as [|p l Hp _ IH]; [done|]. cbn [List.filter]. by rewrite Hp. }
  cbn zeta. cbn [generateBookData BookData.chapters BookData.totalPatrilineal
                 BookData.nameIndex].
  unfold bookPersons. rewrite Hfilter. cbn [fmap list_fmap length].
  rewrite chapters_no_entries. split; [done|]. split; [done|].
  unfold buildNameIndex. by rewrite js_sort_perm, length_fmap.
Qed.

Lemma X10_no_patrilineal_no_chapters_witness :
  BookData.chapters (generateBookData byteCompare aDate Hint0.people [] None) = []
  ∧ BookData.totalPatrilineal
      (generateBookData byteCompare aDate Hint0.people [] None) = 0
  ∧ length (BookData.nameIndex
              (generateBookData byteCompare aDate Hint0.people [] None))
    = length Hint0.people.
Proof.
  apply (X10_no_patrilineal_no_chapters byteCompare aDate Hint0.people [] None).
  repeat constructor.
Defined.

(** ** Invariants of the traversal *)

Section traversal_invariants.
Context (personMap : gmap string TreeNode.t).
Context (familyMap : gmap string TreeFamily.t).

(** A property of the state that every iteration keeps holds, at the exit of
    the loop, for the resulting map and the empty queue. *)
Lemma bfs_invariant (I : state → Prop) :
  (∀ st st', I st → bfs_step personMap familyMap st = Some st' → I st') →
  ∀ st, I st → I (State (bfs personMap familyMap st) []).
Proof.
  intros Hkeep.
  apply (bfs_ind personMap familyMap (λ st r, I st → I (State r []))).
  - intros [gs q] Hq%bfs_step_None Hst. cbn in Hq. by subst q.
  - intros st st' Hstep IH Hst. apply IH. by eapply Hkeep.
Qed.

(** The states an iteration can lead to. *)
Lemma bfs_step_cases st st' :
  bfs_step personMap familyMap st = Some st' →
  ∃ h g q, queue st = (h, g) :: q
    ∧ ((is_Some (gens st !! h) ∧ st' = State (gens st) q)
       ∨ (gens st !! h = None
          ∧ gens st' = <[h:=g]> (gens st)
          ∧ ((personMap !! h = None ∧ queue st' = q)
             ∨ ∃ person, personMap !! h = Some person
                 ∧ queue st' = q ++ visit_families familyMap (<[h:=g]> (gens st)) g
                                     (TreeNode.families person)))).
Proof.
  unfold bfs_step. destruct (queue st) as [|[h g] q]; [done|].
  intros [= <-]. exists h, g, q. split; [done|].
  unfold has. case_bool_decide as Hh; [by left|]. right.
  split; [by apply eq_None_not_Some|].
  destruct (personMap !! h) as [person|]; cbn [gens queue];
    [|by split; [|left]].
  split; [done|]. right. by exists person.
Qed.

Lemma visit_families_derived gs h g person x g' :
  gs !! h = Some g → personMap !! h = Some person →
  (x, g') ∈ visit_families familyMap gs g (TreeNode.families person) →
  derived personMap familyMap gs x g'.
Proof.
  intros Hh Hperson (famId & fam & Hin & Hfam & Hvisit)%visit_families_elem.
  exists h, g, person, famId, fam. do 4 (split; [done|]).
  unfold visit_family in Hvisit. rewrite !elem_of_app in Hvisit.
  destruct Hvisit as [Hv | [Hv | Hv]].
  - apply push_parent_elem in Hv as (? & _ & _ & ->). left. split; [by left|done].
  - apply push_parent_elem in Hv as (? & _ & _ & ->). left. split; [by right|done].
  - apply push_children_elem in Hv as (? & _ & ->). by right.
Qed.

Lemma derived_mono gs h g x g' :
  gs !! h = None → derived personMap familyMap gs x g' →
  derived personMap familyMap (<[h:=g]> gs) x g'.
Proof.
  intros Hh (h0 & g0 & person & famId & fam & Hh0 & Hrest).
  exists h0, g0, person, famId, fam. split; [|done].
  rewrite lookup_insert_ne; [done|]. intros ->. congruence.
Qed.

(** Every generation in the result is in the map from the start, or stands
    with its handle in the queue of the start, or is derived. *)
Lemma bfs_justified st x g :
  bfs personMap familyMap st !! x = Some g →
  gens st !! x = Some g ∨ (x, g) ∈ queue st
  ∨ derived personMap familyMap (bfs personMap familyMap st) x g.
Proof.
  set (J (gs : gmap string Z) y k :=
         gens st !! y = Some k ∨ (y, k) ∈ queue st
         ∨ derived personMap familyMap gs y k).
  set (I (s : state) :=
         (∀ y k, gens s !! y = Some k → J (gens s) y k)
         ∧ (∀ y k, (y, k) ∈ queue s → J (gens s) y k)).
  assert (I (State (bfs personMap familyMap st) [])) as [Hfinal _].
  { apply bfs_invariant.
    - intros s s' [Hg Hq] Hstep.
      apply bfs_step_cases in Hstep as (h & k & q & Eq & Hcase).
      destruct Hcase as [[Hh ->] | (Hh & Eg & Hq')].
      + split; cbn [gens queue]; [done|].
        intros y k' Hin. apply Hq. rewrite Eq. by right.
      + assert (∀ y k', J (gens s) y k' → J (gens s') y k') as Hmono.
        { intros y k' [?|[?|?]]; [by left | right; by left |].
          right; right. rewrite Eg. by apply derived_mono. }
        split.
        * intros y k'. rewrite Eg. destruct (decide (h = y)) as [->|Hne].
          -- rewrite lookup_insert_eq. intros [= <-]. rewrite <- Eg.
             apply Hmono, Hq. rewrite Eq. by left.
          -- rewrite lookup_insert_ne by done. intros Hy. rewrite <- Eg.
             by apply Hmono, Hg.
        * intros y k' Hin.
          destruct Hq' as [[_ Hq'] | (person & Hperson & Hq')]; rewrite Hq' in Hin.
          -- apply Hmono, Hq. rewrite Eq. by right.
          -- apply elem_of_app in Hin as [Hin|Hin].
             ++ apply Hmono, Hq. rewrite Eq. by right.
             ++ right; right. rewrite Eg.
                eapply visit_families_derived; [|done..].
                by rewrite lookup_insert_eq.
    - split; [by left | right; by left]. }
  intros Hx. by apply Hfinal.
Qed.

(** The generations of the result are not negative when those of the start
    are not. *)
Lemma bfs_nonneg st :
  (∀ y k, gens st !! y = Some k → 0 ≤ k) →
  (∀ y k, (y, k) ∈ queue st → 0 ≤ k) →
  ∀ x g, bfs personMap familyMap st !! x = Some g → 0 ≤ g.
Proof.
  intros Hg0 Hq0.
  set (I (s : state) :=
         (∀ y k, gens s !! y = Some k → 0 ≤ k)
         ∧ (∀ y k, (y, k) ∈ queue s → 0 ≤ k)).
  assert (I (State (bfs personMap familyMap st) [])) as [Hfinal _]; [|done].
  apply bfs_invariant; [|done].
  intros s s' [Hg Hq] Hstep.
  apply bfs_step_cases in Hstep as (h & k & q & Eq & Hcase).
  assert (0 ≤ k) as Hk by (apply (Hq h); rewrite Eq; by left).
  assert (∀ y k', (y, k') ∈ q → 0 ≤ k') as Hq1
    by (intros y k' Hin; apply (Hq y); rewrite Eq; by right).
  destruct Hcase as [[Hh ->] | (Hh & Eg & Hq')]; [done|].
  split.
  - intros y k'. rewrite Eg. destruct (decide (h = y)) as [->|Hne].
    + rewrite lookup_insert_eq. by intros [= <-].
    + rewrite lookup_insert_ne by done. apply Hg.
  - intros y k' Hin.
    destruct Hq' as [[_ Hq'] | (person & Hperson & Hq')]; rewrite Hq' in Hin;
      [by eapply Hq1|].
    apply elem_of_app in Hin as [Hin|Hin]; [by eapply Hq1|].
    apply visit_families_elem in Hin as (famId & fam & _ & _ & Hvisit).
    unfold visit_family in Hvisit. rewrite !elem_of_app in Hvisit.
    destruct Hvisit as [Hv | [Hv | Hv]].
    + apply push_parent_elem in Hv as (_ & _ & _ & ->). lia.
    + apply push_parent_elem in Hv as (_ & _ & _ & ->). lia.
    + apply push_children_elem in Hv as (_ & _ & ->). lia.
Qed.
End traversal_invariants.

Lemma initial_queue_elem people families x g :
  (x, g) ∈ queue (initial_state people families) →
  g = 0 ∧ ∃ p, p ∈ people ∧ TreeNode.handle p = x
              ∧ TreeNode.isPatrilineal p = true
              ∧ ∀ f, f ∈ families → x ∉ TreeFamily.children f.
Proof.
  cbn [initial_state queue]. intros (p & [= -> ->] & Hp)%list_elem_of_fmap.
  split; [done|]. exists p.
  apply list_elem_of_In, filter_In in Hp as [Hp Hroot].
  apply list_elem_of_In in Hp. unfold is_root in Hroot.
  apply andb_prop in Hroot as [Hpat Hchild]. do 3 (split; [done|]).
  intros f Hf Hin. apply negb_true_iff, bool_decide_eq_false in Hchild.
  apply Hchild, childOfFamily_spec. by exists f.
Qed.

Lemma traversal_justified people families x g :
  traversal people families !! x = Some g →
  (g = 0 ∧ ∃ p, p ∈ people ∧ TreeNode.handle p = x
               ∧ TreeNode.isPatrilineal p = true
               ∧ ∀ f, f ∈ families → x ∉ TreeFamily.children f)
  ∨ derived (map_by_handle TreeNode.handle people)
            (map_by_handle TreeFamily.handle families)
            (traversal people families) x g.
Proof.
  intros Hx. apply bfs_justified in Hx as [Hx | [Hx | Hx]].
  - cbn [initial_state gens] in Hx. by rewrite lookup_empty in Hx.
  - left. by apply initial_queue_elem.
  - by right.
Qed.

(** X11 (every generation of the traversal has a reason): a handle that the
    traversal gives the generation [g] is the handle of a valid root and [g]
    is 0, or a person that the traversal has reached lists a union that
    names the handle: as father or mother, and then the two have the same
    generation, or as a child, and then [g] is one more than the generation
    of that person. *)
Theorem X11_traversal_justified people families x g :
  traversal people families !! x = Some g →
  (g = 0 ∧ ∃ p, p ∈ people ∧ TreeNode.handle p = x
               ∧ TreeNode.isPatrilineal p = true
               ∧ ∀ f, f ∈ families → x ∉ TreeFamily.children f)
  ∨ ∃ h g' person famId fam,
      traversal people families !! h = Some g'
      ∧ map_by_handle TreeNode.handle people !! h = Some person
      ∧ famId ∈ TreeNode.families person
      ∧ map_by_handle TreeFamily.handle families !! famId = Some fam
      ∧ (((TreeFamily.fatherHandle fam = Some x
           ∨ TreeFamily.motherHandle fam = Some x) ∧ g = g')
         ∨ (x ∈ TreeFamily.children fam ∧ g = g' + 1)).
Proof. apply traversal_justified. Qed.

Lemma X11_traversal_justified_witness :
  (1 = 0 ∧ ∃ p, p ∈ Example3.people ∧ TreeNode.handle p = "C"%string
               ∧ TreeNode.isPatrilineal p = true
               ∧ ∀ f, f ∈ Example3.families → "C"%string ∉ TreeFamily.children f)
  ∨ ∃ h g' person famId fam,
      traversal Example3.people Example3.families !! h = Some g'
      ∧ map_by_handle TreeNode.handle Example3.people !! h = Some person
      ∧ famId ∈ TreeNode.families person
      ∧ map_by_handle TreeFamily.handle Example3.families !! famId = Some fam
      ∧ (((TreeFamily.fatherHandle fam = Some "C"%string
           ∨ TreeFamily.motherHandle fam = Some "C"%string) ∧ 1 = g')
         ∨ ("C"%string ∈ TreeFamily.children fam ∧ 1 = g' + 1)).
Proof.
  apply (X11_traversal_justified Example3.people Example3.families "C" 1).
  vm_compute. reflexivity.
Defined.

(** ** The generations as a whole *)

Lemma fallback_origin people gs h g :
  fallback people gs !! h = Some g →
  gs !! h = Some g
  ∨ ∃ p, p ∈ people ∧ TreeNode.handle p = h ∧ g = fallbackGen p.
Proof.
  unfold fallback. revert gs.
  induction people as [|p people IH]; intros gs; cbn [foldl]; [by left|].
  intros [Hg | (p' & Hin & Hh & Hgen)]%IH.
  - unfold has in Hg. case_bool_decide; [by left|].
    destruct (decide (TreeNode.handle p = h)) as [Heq|Hne].
    + rewrite <- Heq, lookup_insert_eq in Hg. injection Hg as <-.
      right. exists p. split; [by left | done].
    + rewrite lookup_insert_ne in Hg by done. by left.
  - right. exists p'. split; [by right | done].
Qed.

(** X12 (no generation for an unknown handle): a handle has a generation in
    the map only if it is the handle of a person of the input or a union of
    the input names it as father, mother or child. *)
Theorem X12_generations_domain people families h g :
  generations people families !! h = Some g →
  h ∈ TreeNode.handle <$> people
  ∨ ∃ f, f ∈ families ∧ names_handle f h.
Proof.
  intros [Ht | (p & Hp & <- & _)]%fallback_origin.
  - apply traversal_justified in Ht
      as [(_ & p & Hp & <- & _) | (h' & g' & person & famId & fam & _ & _ & _ & Hfam & Hx)].
    + left. by apply list_elem_of_fmap_2.
    + right. exists fam. split; [by apply map_by_handle_elem in Hfam as [? _]|].
      unfold names_handle. tauto.
  - left. by apply list_elem_of_fmap_2.
Qed.

Lemma X12_generations_domain_witness :
  "C"%string ∈ TreeNode.handle <$> Example3.people
  ∨ ∃ f, f ∈ Example3.families ∧ names_handle f "C".
Proof.
  apply (X12_generations_domain Example3.people Example3.families "C" 1).
  vm_compute. reflexivity.
Defined.

Lemma traversal_nonneg people families x g :
  traversal people families !! x = Some g → 0 ≤ g.
Proof.
  revert x g. apply bfs_nonneg.
  - intros y k. cbn [initial_state gens]. by rewrite lookup_empty.
  - intros y k [-> _]%initial_queue_elem. done.
Qed.

Lemma generations_nonneg people families :
  Forall (λ p, ∀ hint, TreeNode.generation p = Some hint → 0 ≤ hint) people →
  ∀ x g, generations people families !! x = Some g → 0 ≤ g.
Proof.
  intros Hhints x g [Ht | (p & Hp & _ & ->)]%fallback_origin;
    [by eapply traversal_nonneg|].
  pose proof (proj1 (Forall_forall _ _) Hhints p Hp) as Hhint.
  unfold fallbackGen, truthy_num. cbn beta in Hhint.
  destruct (TreeNode.generation p) as [hint|]; [|done].
  specialize (Hhint hint eq_refl). cbn [default].
  destruct (Z.eqb_spec hint 0); cbn [negb]; unfold id; lia.
Qed.

(** X13 (no negative generation without a negative hint): the traversal
    assigns no negative generation, and when no record of the input holds a
    negative hint, no generation of the map is negative; then the chapters
    hold every entry of a patrilineal person exactly once. *)
Theorem X13_generations_nonneg localeCompare today people families familyName :
  (∀ x g, traversal people families !! x = Some g → 0 ≤ g)
  ∧ (Forall (λ p, ∀ hint, TreeNode.generation p = Some hint → 0 ≤ hint) people →
     (∀ x g, generations people families !! x = Some g → 0 ≤ g)
     ∧ BookData.chapters
         (generateBookData localeCompare today people families familyName)
       ≫= BookChapter.members
       ≡ₚ bookPersons (map_by_handle TreeNode.handle people)
                      (map_by_handle TreeFamily.handle families)
                      (generations people families) people).
Proof.
  split; [apply traversal_nonneg|]. intros Hhints.
  pose proof (generations_nonneg people families Hhints) as Hgen.
  split; [exact Hgen|].
  rewrite chapters_partition.
  match goal with |- List.filter _ ?l ≡ₚ _ =>
    assert (Forall (λ bp, 0 ≤ BookPerson.generation bp) l) as Hall end.
  { apply Forall_forall. intros bp (p & Hp & _ & ->)%bookPersons_elem.
    cbn [buildBookPerson BookPerson.generation].
    destruct (generations_total people families p Hp) as [g Hg].
    rewrite Hg. cbn. by eapply Hgen. }
  induction Hall as [|bp l Hbp _ IH]; [done|]. cbn [List.filter].
  destruct (Z.leb_spec 0 (BookPerson.generation bp)); [|lia]. by rewrite IH.
Qed.

Lemma X13_generations_nonneg_witness :
  (∀ x g, generations Example3.people Example3.families !! x = Some g → 0 ≤ g)
  ∧ BookData.chapters
      (generateBookData byteCompare aDate Example3.people Example3.families None)
    ≫= BookChapter.members
    ≡ₚ bookPersons (map_by_handle TreeNode.handle Example3.people)
                   (map_by_handle TreeFamily.handle Example3.families)
                   (generations Example3.people Example3.families)
                   Example3.people.
Proof.
  apply (proj2 (X13_generations_nonneg byteCompare aDate Example3.people
                  Example3.families None)).
  repeat constructor; intros hint Hhint; discriminate Hhint.
Defined.

(** X14 (no root, no traversal): when every patrilineal person of the input
    is listed as a child by some union, there is no valid root, the
    traversal assigns nothing, and with unique handles every person has the
    generation of the fallback pass: the hint less one for a hint other
    than 0, and 0 otherwise. *)
Theorem X14_no_root_no_traversal people families :
  (∀ p, p ∈ people → TreeNode.isPatrilineal p = true →
        ∃ f, f ∈ families ∧ TreeNode.handle p ∈ TreeFamily.children f) →
  traversal people families = ∅
  ∧ (NoDup (TreeNode.handle <$> people) →
     ∀ p, p ∈ people →
       generations people families !! TreeNode.handle p
       = Some (match TreeNode.generation p with
               | Some hint => if hint =? 0 then 0 else hint - 1
               | None => 0
               end)).
Proof.
  intros Hchildren.
  assert (roots people families = []) as Hroots.
  { unfold roots. destruct (List.filter _ people) as [|p l] eqn:E; [done|].
    assert (In p (List.filter (is_root families) people)) as Hp
      by (rewrite E; by left).
    apply filter_In in Hp as [Hp Hroot]. apply list_elem_of_In in Hp.
    unfold is_root in Hroot. apply andb_prop in Hroot as [Hpat Hnochild].
    apply negb_true_iff, bool_decide_eq_false in Hnochild.
    destruct Hnochild. apply childOfFamily_spec. by apply Hchildren. }
  assert (traversal people families = ∅) as Htrav.
  { unfold traversal, initial_state. rewrite Hroots. cbn [fmap list_fmap].
    by rewrite bfs_unfold. }
  split; [done|]. intros Hnd p Hp. unfold generations. rewrite Htrav.
  rewrite (fallback_fresh people ∅ p Hnd Hp) by apply lookup_empty.
  unfold fallbackGen, truthy_num.
  destruct (TreeNode.generation p) as [hint|]; [|done].
  cbn [default]. by destruct (hint =? 0).
Qed.

Lemma X14_no_root_no_traversal_witness :
  traversal NoRoot.people NoRoot.families = ∅
  ∧ generations NoRoot.people NoRoot.families !! "X"%string = Some 2
  ∧ generations NoRoot.people NoRoot.families !! "Y"%string = Some 0.
Proof.
  destruct (X14_no_root_no_traversal NoRoot.people NoRoot.families)
    as [Htrav Hgen].
  - intros p Hp _. apply elem_of_cons in Hp as [->|Hp].
    + exists NoRoot.FY. split; [right; by left | by left].
    + apply list_elem_of_singleton in Hp as ->.
      exists NoRoot.FX. split; by left.
  - split; [exact Htrav|].
    assert (NoDup (TreeNode.handle <$> NoRoot.people)) as Hnd.
    { vm_compute. apply NoDup_cons. split; [|apply NoDup_singleton].
      intros Hin%list_elem_of_singleton. discriminate Hin. }
    split.
    + apply (Hgen Hnd NoRoot.X). by left.
    + apply (Hgen Hnd NoRoot.Y). right; by left.
Defined.

(** ** Ordinals and lifespans as strings *)

Lemma append_cons c (s t : string) : (String c s +:+ t = String c (s +:+ t))%string.
Proof. reflexivity. Qed.

Lemma append_snoc (t : string) c s :
  (t +:+ String c s = (t +:+ String c EmptyString) +:+ s)%string.
Proof.
  induction t as [|c' t IHt]; [done|]. rewrite !append_cons. by f_equal.
Qed.

Lemma last_char_app_cons s c t :
  last_char (s +:+ String c t) = last_char (String c t).
Proof.
  induction s as [|c' s IH]; [done|]. rewrite append_cons.
  cbn [last_char]. rewrite IH.
  by destruct (s +:+ String c t)%string eqn:E; [destruct s; discriminate E|].
Qed.

Lemma pretty_N_char_digit x : is_digit (pretty_N_char x) = true.
Proof.
  unfold pretty_N_char, is_digit.
  repeat case_match; by vm_compute.
Qed.

Lemma pretty_N_go_last x s :
  (0 < x)%N →
  ∃ t c, pretty_N_go x s = (t +:+ String c s)%string ∧ is_digit c = true.
Proof.
  revert s. induction (N.lt_wf_0 x) as [x _ IH]; intros s Hx.
  rewrite pretty_N_go_step by done.
  destruct (decide (x `div` 10 = 0)%N) as [->|Hdiv].
  - rewrite pretty_N_go_0. exists EmptyString, (pretty_N_char (x `mod` 10)).
    split; [done | apply pretty_N_char_digit].
  - destruct (IH (x `div` 10)%N) with (s := String (pretty_N_char (x `mod` 10)) s)
      as (t & c & -> & _).
    + apply N.div_lt; lia.
    + by apply N.neq_0_lt_0.
    + exists (t +:+ String c EmptyString)%string, (pretty_N_char (x `mod` 10)).
      split; [|apply pretty_N_char_digit].
      apply append_snoc.
Qed.

(** The decimal notation of an integer ends with a digit. *)
Lemma pretty_Z_last (z : Z) :
  ∃ c, last_char (pretty z) = Some c ∧ is_digit c = true.
Proof.
  assert (∀ p : positive, ∃ c, last_char (pretty p) = Some c ∧ is_digit c = true)
    as Hpos.
  { intros p. unfold pretty, pretty_positive, pretty, pretty_N.
    rewrite decide_False by done.
    destruct (pretty_N_go_last (N.pos p) EmptyString) as (t & c & -> & Hc); [lia|].
    exists c. by rewrite last_char_app_cons. }
  destruct z as [|p|p]; unfold pretty, pretty_Z.
  - by exists "0"%char.
  - apply Hpos.
  - destruct (Hpos p) as (c & Hlast & Hc). exists c. split; [|done].
    destruct (pretty p) as [|c' s] eqn:E; [done|].
    by rewrite (append_cons "-" EmptyString).
Qed.

Lemma roman_last_no_digit r :
  r ∈ ROMAN → ∃ c, last_char r = Some c ∧ is_digit c = false.
Proof.
  unfold ROMAN. rewrite !elem_of_cons, elem_of_nil.
  intros H. repeat (destruct H as [->|H]; [by eexists|]). done.
Qed.

Lemma romanNumeral_cases n :
  (0 ≤ n < 20 ∧ ROMAN !! Z.to_nat n = Some (romanNumeral n))
  ∨ ((n < 0 ∨ 20 ≤ n) ∧ romanNumeral n = pretty (n + 1)).
Proof.
  unfold romanNumeral. destruct (Z.leb_spec 0 n) as [Hle|Hlt]; [|right; by split; [left|]].
  destruct (ROMAN !! Z.to_nat n) as [r|] eqn:E.
  - left. split; [|done]. apply lookup_lt_Some in E. cbn in E. lia.
  - right. split; [|done]. apply lookup_ge_None in E. cbn in E. lia.
Qed.

(** X15 (ordinals of the generations): for the generations 0 to 19 the
    ordinal is the roman numeral of the generation counted from one, as the
    usual rule for roman numerals gives it; for every other number it is the
    decimal notation of the number plus one. *)
Theorem X15_romanNumeral_standard n :
  romanNumeral n
  = if bool_decide (0 ≤ n < 20) then to_roman (Z.to_nat (n + 1))
    else pretty (n + 1).
Proof.
  case_bool_decide as Hn.
  - assert (∃ k, (k < 20)%nat ∧ n = Z.of_nat k) as (k & Hk & ->)
      by (exists (Z.to_nat n); lia).
    do 20 (destruct k as [|k]; [by vm_compute|]). lia.
  - destruct (romanNumeral_cases n) as [[? _]|[_ ->]]; [lia | done].
Qed.

Lemma romanNumeral_inj n m : romanNumeral n = romanNumeral m → n = m.
Proof.
  intros Heq.
  destruct (romanNumeral_cases n) as [[Hn En]|[Hn En]],
           (romanNumeral_cases m) as [[Hm Em]|[Hm Em]].
  - rewrite Heq in En.
    assert (NoDup ROMAN) as Hnd.
    { apply (bool_decide_unpack _). vm_compute. exact I. }
    pose proof (NoDup_lookup _ _ _ _ Hnd En Em). lia.
  - apply list_elem_of_lookup_2, roman_last_no_digit in En as (c & Hc & Hd).
    rewrite Heq, Em in Hc. destruct (pretty_Z_last (m + 1)) as (c' & Hc' & Hd').
    congruence.
  - apply list_elem_of_lookup_2, roman_last_no_digit in Em as (c & Hc & Hd).
    rewrite <- Heq, En in Hc. destruct (pretty_Z_last (n + 1)) as (c' & Hc' & Hd').
    congruence.
  - rewrite En, Em in Heq. apply (inj pretty) in Heq. lia.
Qed.

(** X16 (ordinals are unambiguous): two different numbers never have the
    same ordinal, so chapters of different generations have different
    ordinals. *)
Theorem X16_romanNumeral_distinct n m : n ≠ m → romanNumeral n ≠ romanNumeral m.
Proof. intros Hne Heq. by apply Hne, romanNumeral_inj. Qed.

Lemma X16_romanNumeral_distinct_witness : romanNumeral 9 ≠ romanNumeral 20.
Proof. apply X16_romanNumeral_distinct. lia. Defined.

Lemma formatYears_given birth death isLiving :
  formatYears birth death isLiving
  = formatYears_spec (given_year birth) (given_year death) isLiving.
Proof.
  unfold formatYears, formatYears_spec, truthy_num, given_year.
  destruct birth as [b|]; [|done].
  destruct (b =? 0); [done|]. cbn [negb tpl].
  destruct death as [d|]; [|done].
  by destruct (d =? 0).
Qed.

(** X17 (the dash stands for an unknown birth year only): the lifespan string
    is the dash exactly when no birth year other than 0 is recorded, so the
    dash never stands for a person whose birth year is known. *)
Theorem X17_formatYears_dash birth death isLiving :
  formatYears birth death isLiving = "—"%string ↔ given_year birth = None.
Proof.
  rewrite formatYears_given. unfold formatYears_spec.
  destruct (given_year birth) as [b|]; [|done].
  split; [|done]. intros Heq. exfalso.
  assert (last_char (formatYears_spec (Some b) (given_year death) isLiving)
          ≠ last_char "—"%string) as Hne; [|by rewrite <- Heq in Hne].
  unfold formatYears_spec.
  destruct (given_year death) as [d|].
  - destruct (pretty_Z_last d) as (c & Hc & Hd).
    destruct (pretty d) as [|c0 s0] eqn:E; [done|].
    rewrite !append_cons, last_char_app_cons.
    change (EmptyString +:+ String c0 s0)%string with (String c0 s0).
    cbn [last_char] in *. rewrite Hc. intros [= ->]. by vm_compute in Hd.
  - destruct isLiving.
    + rewrite last_char_app_cons. by vm_compute.
    + destruct (pretty_Z_last b) as (c & Hc & Hd). rewrite Hc.
      intros [= ->]. by vm_compute in Hd.
Qed.

(** ** The titles of the chapters *)

Lemma romanNumeral_last n :
  ∃ c, last_char (romanNumeral n) = Some c
       ∧ (is_digit c = true ∨ c ∈ ["I"; "V"; "X"]%char).
Proof.
  destruct (romanNumeral_cases n) as [[_ En]|[_ ->]].
  - apply list_elem_of_lookup_2 in En. revert En.
    generalize (romanNumeral n). intros r. unfold ROMAN.
    rewrite !elem_of_cons, elem_of_nil.
    intros H. repeat (destruct H as [->|H];
      [eexists; split; [reflexivity|]; right;
       rewrite !elem_of_cons; tauto|]). done.
  - destruct (pretty_Z_last (n + 1)) as (c & Hc & Hd). exists c. by split; [|left].
Qed.

Lemma append_inj_l (s t1 t2 : string) : (s +:+ t1 = s +:+ t2)%string → t1 = t2.
Proof.
  induction s as [|c s IH]; [done|]. rewrite !append_cons. intros [= ?]. auto.
Qed.

Lemma genTitle_inj n m : genTitle n = genTitle m → n = m.
Proof.
  assert (∀ k, k ≠ 0 → genTitle k = ("ĐỜI THỨ " +:+ romanNumeral k)%string) as Hrest.
  { intros k Hk. unfold genTitle, GEN_NAMES.
    by destruct (Z.eqb_spec k 0). }
  assert (∀ k, k ≠ 0 → genTitle 0 ≠ genTitle k) as Hzero.
  { intros k Hk Heq. rewrite (Hrest k Hk) in Heq.
    apply (f_equal last_char) in Heq.
    destruct (romanNumeral_last k) as (c & Hc & Hkind).
    destruct (romanNumeral k) as [|c0 s0] eqn:E; [done|].
    rewrite last_char_app_cons, Hc in Heq. vm_compute in Heq.
    injection Heq as <-. destruct Hkind as [Hd | Hin]; [by vm_compute in Hd|].
    rewrite !elem_of_cons, elem_of_nil in Hin.
    destruct Hin as [?|[?|[?|?]]]; done. }
  intros Heq. destruct (decide (n = 0)) as [->|Hn], (decide (m = 0)) as [->|Hm].
  - done.
  - by destruct (Hzero m Hm).
  - by destruct (Hzero n Hn).
  - rewrite (Hrest n Hn), (Hrest m Hm) in Heq.
    apply append_inj_l in Heq. by apply romanNumeral_inj.
Qed.

(** X18 (titles are unambiguous): two different generations never have the
    same chapter title. *)
Theorem X18_genTitle_distinct n m : n ≠ m → genTitle n ≠ genTitle m.
Proof. intros Hne Heq. by apply Hne, genTitle_inj. Qed.

Lemma X18_genTitle_distinct_witness : genTitle 0 ≠ genTitle 1.
Proof. apply X18_genTitle_distinct. lia. Defined.

(** ** The names of the parents *)

Lemma last_name_omap (f : string → option string) pfIds :
  last_name f None pfIds = last (omap f pfIds).
Proof.
  induction pfIds as [|pfId pfIds IH] using rev_ind; [done|].
  unfold last_name in *. rewrite foldl_app, omap_app. cbn [foldl]. rewrite IH.
  cbn [omap list_omap]. destruct (f pfId) as [n|]; cbn [from_option].
  - by rewrite last_snoc.
  - by rewrite app_nil_r.
Qed.

(** X19 (names of the parents, in general): the name of the father in an
    entry is the last of the names that the parent unions of the person give
    for the father slot, a union giving a name when the family map knows it
    and its father handle is not empty and known to the person map; the
    entry has no father name exactly when no parent union gives one.  The
    same holds, independently, for the mother. *)
Theorem X19_parent_names
    (personMap : gmap string TreeNode.t) (familyMap : gmap string TreeFamily.t)
    (gs : gmap string Z) (p : TreeNode.t) :
  let bp := buildBookPerson personMap familyMap gs p in
  let fathers := omap (name_in_union personMap familyMap TreeFamily.fatherHandle)
                      (TreeNode.parentFamilies p) in
  let mothers := omap (name_in_union personMap familyMap TreeFamily.motherHandle)
                      (TreeNode.parentFamilies p) in
  BookPerson.fatherName bp = last fathers
  ∧ BookPerson.motherName bp = last mothers
  ∧ (BookPerson.fatherName bp = None ↔ fathers = [])
  ∧ (BookPerson.motherName bp = None ↔ mothers = []).
Proof.
  cbn zeta. cbn [buildBookPerson BookPerson.fatherName BookPerson.motherName].
  unfold parentNames. rewrite parent_rounds_names. cbn [fst snd].
  rewrite !last_name_omap. by rewrite !last_None.
Qed.

(** ** What the traversal reaches *)

Section traversal_closure.
Context (personMap : gmap string TreeNode.t).
Context (familyMap : gmap string TreeFamily.t).

Lemma visit_families_complete gs g person x :
  handed_on familyMap person x → gs !! x = None →
  x ∈ (visit_families familyMap gs g (TreeNode.families person)).*1.
Proof.
  intros (famId & fam & Hin & Hfam & Hx) Hgs.
  assert (∃ g', (x, g') ∈ visit_family gs g fam) as [g' Hv].
  { unfold visit_family. destruct Hx as [[[Hp|Hp] Hne] | Hc].
    - exists g. rewrite !elem_of_app, Hp. left. by apply push_parent_intro.
    - exists g. rewrite !elem_of_app, Hp. right; left. by apply push_parent_intro.
    - exists (g + 1). rewrite !elem_of_app. right; right.
      by apply push_children_elem. }
  apply list_elem_of_fmap. exists (x, g'). split; [done|].
  by eapply visit_families_intro.
Qed.

Lemma bfs_closed st :
  (∀ h person x, is_Some (gens st !! h) → personMap !! h = Some person →
     handed_on familyMap person x → is_Some (gens st !! x) ∨ x ∈ (queue st).*1) →
  ∀ h person x,
    is_Some (bfs personMap familyMap st !! h) → personMap !! h = Some person →
    handed_on familyMap person x → is_Some (bfs personMap familyMap st !! x).
Proof.
  intros Hstart.
  set (I (s : state) :=
         ∀ h person x, is_Some (gens s !! h) → personMap !! h = Some person →
           handed_on familyMap person x → is_Some (gens s !! x) ∨ x ∈ (queue s).*1).
  assert (I (State (bfs personMap familyMap st) [])) as Hfinal.
  { apply bfs_invariant; [|done].
    intros s s' Hs Hstep h person x Hh Hperson Hx.
    apply bfs_step_cases in Hstep as (y & k & q & Eq & Hcase).
    destruct Hcase as [[Hy ->] | (Hy & Eg & Hq')]; cbn [gens queue] in *.
    - destruct (Hs h person x Hh Hperson Hx) as [?|Hin]; [by left|].
      rewrite Eq, fmap_cons, elem_of_cons in Hin. cbn in Hin.
      destruct Hin as [->|Hin]; [by left | by right].
    - rewrite Eg in Hh |- *.
      destruct (decide (y = x)) as [->|Hyx];
        [left; rewrite lookup_insert_eq; by eexists|].
      rewrite (lookup_insert_ne _ y x) by done.
      destruct (decide (y = h)) as [->|Hyh].
      + destruct (gens s !! x) as [gx|] eqn:Egx; [left; by eexists|]. right.
        destruct Hq' as [[Hnone _] | (person' & Hperson' & Hq')];
          [congruence|].
        assert (person' = person) as -> by congruence.
        rewrite Hq', fmap_app, elem_of_app. right.
        apply visit_families_complete; [done|]. by rewrite lookup_insert_ne.
      + rewrite lookup_insert_ne in Hh by done.
        destruct (Hs h person x Hh Hperson Hx) as [?|Hin]; [by left|]. right.
        rewrite Eq, fmap_cons, elem_of_cons in Hin. cbn in Hin.
        destruct Hin as [->|Hin]; [done|].
        destruct Hq' as [[_ ->] | (person' & _ & ->)]; [done|].
        rewrite fmap_app, elem_of_app. by left. }
  intros h person x Hh Hperson Hx.
  destruct (Hfinal h person x Hh Hperson Hx) as [?|Hin]; [done|].
  by apply elem_of_nil in Hin.
Qed.
End traversal_closure.

(** X20 (the traversal leaves nobody behind): when the traversal reaches a
    person of the person map, it also reaches every handle that the unions
    listed in the record of that person name as a child or, if not empty, as
    father or mother; so nobody tied to a reached person by such a union is
    left to the fallback pass. *)
Theorem X20_traversal_closed people families h g person famId fam x :
  traversal people families !! h = Some g →
  map_by_handle TreeNode.handle people !! h = Some person →
  famId ∈ TreeNode.families person →
  map_by_handle TreeFamily.handle families !! famId = Some fam →
  ((TreeFamily.fatherHandle fam = Some x ∨ TreeFamily.motherHandle fam = Some x)
   ∧ x ≠ EmptyString)
  ∨ x ∈ TreeFamily.children fam →
  ∃ g', traversal people families !! x = Some g'
        ∧ generations people families !! x = Some g'.
Proof.
  intros Hh Hperson Hin Hfam Hx.
  destruct (bfs_closed (map_by_handle TreeNode.handle people)
              (map_by_handle TreeFamily.handle families)
              (initial_state people families)) with (h := h) (person := person) (x := x)
    as [g' Hg'].
  - intros h0 person0 x0 [? Hh0]. cbn [initial_state gens] in Hh0.
    by rewrite lookup_empty in Hh0.
  - by eexists.
  - done.
  - by exists famId, fam.
  - exists g'. split; [done|]. by apply fallback_keeps.
Qed.

Lemma X20_traversal_closed_witness :
  ∃ g', traversal Example3.people Example3.families !! "C"%string = Some g'
        ∧ generations Example3.people Example3.families !! "C"%string = Some g'.
Proof.
  apply (X20_traversal_closed Example3.people Example3.families
           "B" 0 Example3.B "F" Example3.F "C").
  - vm_compute. reflexivity.
  - vm_compute. reflexivity.
  - by left.
  - vm_compute. reflexivity.
  - right. by left.
Defined.

(** ** Bounds and counts *)

Section traversal_bound.
Context (personMap : gmap string TreeNode.t).
Context (familyMap : gmap string TreeFamily.t).

Lemma bfs_bounded st :
  (∀ y k, gens st !! y = Some k → k < Z.of_nat (size (gens st))) →
  (∀ y k, (y, k) ∈ queue st → k ≤ Z.of_nat (size (gens st))) →
  ∀ x g, bfs personMap familyMap st !! x = Some g →
         g < Z.of_nat (size (bfs personMap familyMap st)).
Proof.
  intros Hg0 Hq0.
  set (I (s : state) :=
         (∀ y k, gens s !! y = Some k → k < Z.of_nat (size (gens s)))
         ∧ (∀ y k, (y, k) ∈ queue s → k ≤ Z.of_nat (size (gens s)))).
  assert (I (State (bfs personMap familyMap st) [])) as [Hfinal _]; [|done].
  apply bfs_invariant; [|done].
  intros s s' [Hg Hq] Hstep.
  apply bfs_step_cases in Hstep as (h & k & q & Eq & Hcase).
  assert (k ≤ Z.of_nat (size (gens s))) as Hk by (apply (Hq h); rewrite Eq; by left).
  assert (∀ y k', (y, k') ∈ q → k' ≤ Z.of_nat (size (gens s))) as Hq1
    by (intros y k' Hin; apply (Hq y); rewrite Eq; by right).
  destruct Hcase as [[Hh ->] | (Hh & Eg & Hq')]; [done|].
  assert (size (gens s') = S (size (gens s))) as Hsize
    by (rewrite Eg; by apply map_size_insert_None).
  split.
  - intros y k'. rewrite Hsize, Eg. destruct (decide (h = y)) as [->|Hne].
    + rewrite lookup_insert_eq. intros [= <-]. lia.
    + rewrite lookup_insert_ne by done. intros Hy%Hg. lia.
  - intros y k' Hin. rewrite Hsize.
    destruct Hq' as [[_ Hq'] | (person & Hperson & Hq')]; rewrite Hq' in Hin.
    + apply Hq1 in Hin. lia.
    + apply elem_of_app in Hin as [Hin|Hin]; [apply Hq1 in Hin; lia|].
      apply visit_families_elem in Hin as (famId & fam & _ & _ & Hvisit).
      unfold visit_family in Hvisit. rewrite !elem_of_app in Hvisit.
      destruct Hvisit as [Hv | [Hv | Hv]].
      * apply push_parent_elem in Hv as (_ & _ & _ & ->). lia.
      * apply push_parent_elem in Hv as (_ & _ & _ & ->). lia.
      * apply push_children_elem in Hv as (_ & _ & ->). lia.
Qed.
End traversal_bound.

(** X21 (generations of the traversal are bounded by its reach): a
    generation that the traversal assigns is 0 or more and less than the
    number of handles that the traversal reaches. *)
Theorem X21_traversal_bounded people families x g :
  traversal people families !! x = Some g →
  0 ≤ g < Z.of_nat (size (traversal people families)).
Proof.
  intros Hx. split; [by eapply traversal_nonneg|].
  revert x g Hx. apply bfs_bounded.
  - intros y k. cbn [initial_state gens]. by rewrite lookup_empty.
  - intros y k [-> _]%initial_queue_elem. lia.
Qed.

Lemma X21_traversal_bounded_witness :
  0 ≤ 1 < Z.of_nat (size (traversal Example3.people Example3.families)).
Proof.
  apply (X21_traversal_bounded Example3.people Example3.families "C" 1).
  vm_compute. reflexivity.
Defined.

(** X22 (counts of the book): the chapters together hold at most
    [totalPatrilineal] members, which is at most [totalMembers]; they hold
    exactly [totalPatrilineal] members when no generation of the map is
    negative. *)
Theorem X22_counts localeCompare today people families familyName :
  let book := generateBookData localeCompare today people families familyName in
  let in_chapters :=
    Z.of_nat (length (BookData.chapters book ≫= BookChapter.members)) in
  in_chapters ≤ BookData.totalPatrilineal book
  ∧ BookData.totalPatrilineal book ≤ BookData.totalMembers book
  ∧ ((∀ x g, generations people families !! x = Some g → 0 ≤ g) →
     in_chapters = BookData.totalPatrilineal book).
Proof.
  cbn zeta. rewrite chapters_partition.
  cbn [generateBookData BookData.totalPatrilineal BookData.totalMembers].
  unfold bookPersons. rewrite <- (length_fmap
    (buildBookPerson (map_by_handle TreeNode.handle people)
                     (map_by_handle TreeFamily.handle families)
                     (generations people families))
    (List.filter TreeNode.isPatrilineal people)).
  split; [|split].
  - pose proof (filter_length_le (λ bp, 0 <=? BookPerson.generation bp)
      (buildBookPerson (map_by_handle TreeNode.handle people)
                       (map_by_handle TreeFamily.handle families)
                       (generations people families)
       <$> List.filter TreeNode.isPatrilineal people)). lia.
  - rewrite length_fmap.
    pose proof (filter_length_le TreeNode.isPatrilineal people). lia.
  - intros Hnn. f_equal. f_equal.
    apply forallb_filter_id, forallb_forall. intros bp Hbp.
    apply list_elem_of_In in Hbp. fold (bookPersons
      (map_by_handle TreeNode.handle people)
      (map_by_handle TreeFamily.handle families)
      (generations people families) people) in Hbp.
    apply bookPersons_elem in Hbp as (p & Hp & _ & ->).
    cbn [buildBookPerson BookPerson.generation].
    destruct (generations_total people families p Hp) as [g Hg].
    rewrite Hg. cbn. apply Z.leb_le. by eapply Hnn.
Qed.

Lemma X22_counts_witness :
  Z.of_nat (length (BookData.chapters
                      (generateBookData byteCompare aDate Example3.people
                                        Example3.families None)
                    ≫= BookChapter.members))
  = BookData.totalPatrilineal
      (generateBookData byteCompare aDate Example3.people Example3.families None).
Proof.
  apply (X22_counts byteCompare aDate Example3.people Example3.families None).
  apply generations_nonneg.
  repeat constructor; intros hint Hhint; discriminate Hhint.
Defined.

(** ** The fallback pass with repeated handles *)

Lemma fallback_app people1 people2 gs :
  fallback (people1 ++ people2) gs = fallback people2 (fallback people1 gs).
Proof. unfold fallback. apply foldl_app. Qed.

Lemma fallback_skips people gs h :
  h ∉ TreeNode.handle <$> people → fallback people gs !! h = gs !! h.
Proof.
  unfold fallback. revert gs.
  induction people as [|p people IH]; intros gs Hh; [done|].
  rewrite fmap_cons, not_elem_of_cons in Hh. destruct Hh as [Hne Hh].
  cbn [foldl]. rewrite IH by done. unfold has. case_bool_decide; [done|].
  by rewrite lookup_insert_ne.
Qed.

(** X23 (fallback with repeated handles): when several records of the input
    have the same handle and the traversal does not reach it, the handle
    receives the fallback generation of the FIRST of these records in the
    order of the input (the hint less one for a hint other than 0, and 0
    otherwise), whereas the person map keeps the last of them. *)
Theorem X23_fallback_first_record people families pre p post :
  people = pre ++ p :: post →
  TreeNode.handle p ∉ TreeNode.handle <$> pre →
  traversal people families !! TreeNode.handle p = None →
  generations people families !! TreeNode.handle p
  = Some (match TreeNode.generation p with
          | Some hint => if hint =? 0 then 0 else hint - 1
          | None => 0
          end).
Proof.
  intros Hpeople Hfirst Htrav. unfold generations.
  rewrite Hpeople at 1. rewrite fallback_app.
  change (p :: post) with ([p] ++ post). rewrite fallback_app.
  apply fallback_keeps. unfold fallback at 1. cbn [foldl].
  unfold has. rewrite fallback_skips, Htrav by done.
  rewrite bool_decide_eq_false_2 by (intros [? ?]; done).
  rewrite lookup_insert_eq. f_equal. unfold fallbackGen, truthy_num.
  destruct (TreeNode.generation p) as [hint|]; [|done].
  cbn [default]. by destruct (hint =? 0).
Qed.

Lemma X23_fallback_first_record_witness :
  generations Twice.people [] !! "D"%string = Some 4
  ∧ map_by_handle TreeNode.handle Twice.people !! "D"%string = Some Twice.second.
Proof.
  split; [|reflexivity].
  apply (X23_fallback_first_record Twice.people [] [] Twice.first [Twice.second]).
  - reflexivity.
  - apply not_elem_of_nil.
  - reflexivity.
Defined.

(** * Runs under different engines *)

Section stable_sorting.
Context {A : Type} (cmp : A → A → Z).
Context (cmp_consistent : consistent cmp).

Local Abbreviation before := (λ a b : A, cmp a b ≤ 0).
Local Abbreviation alike := (λ a x : A, cmp a x =? 0).

Lemma cmp_refl a : cmp a a = 0.
Proof.
  destruct cmp_consistent as (H1 & H2 & _).
  destruct (Z.le_gt_cases (cmp a a) 0) as [Hle|Hgt].
  - specialize (H1 a a Hle). lia.
  - specialize (H2 a a ltac:(lia)). lia.
Qed.

Lemma cmp_total a b : cmp a b ≤ 0 ∨ cmp b a ≤ 0.
Proof.
  destruct cmp_consistent as (_ & H2 & _).
  destruct (Z.le_gt_cases (cmp a b) 0) as [Hle|Hgt]; [by left|].
  right. apply H2. lia.
Qed.

Lemma cmp_both a b : cmp a b ≤ 0 → cmp b a ≤ 0 → cmp a b = 0.
Proof.
  destruct cmp_consistent as (H1 & _ & _). intros Hab Hba.
  specialize (H1 b a Hba). lia.
Qed.

Lemma cmp_trans a b c : cmp a b ≤ 0 → cmp b c ≤ 0 → cmp a c ≤ 0.
Proof. destruct cmp_consistent as (_ & _ & H3). apply H3. Qed.

Lemma cmp_alike a x y : cmp a x = 0 → cmp a y = 0 → cmp x y ≤ 0.
Proof.
  destruct cmp_consistent as (_ & H2 & H3). intros Hx Hy.
  apply (H3 x a y); [apply H2; lia | lia].
Qed.

(** *** The insertion sort of the model keeps the contract *)

Lemma js_insert_before x l :
  StronglySorted before l → StronglySorted before (js_insert cmp x l).
Proof.
  induction l as [|y l IH]; intros Hs; cbn [js_insert].
  - repeat constructor.
  - apply StronglySorted_inv in Hs as [Hl Hy].
    destruct (Z.leb_spec (cmp x y) 0) as [Hle|Hgt].
    + constructor; [by constructor|]. constructor; [done|].
      eapply Forall_impl; [exact Hy|]. cbn. intros z Hz. by eapply cmp_trans.
    + constructor; [by apply IH|].
      rewrite js_insert_perm. constructor; [|done].
      destruct (cmp_total x y); [lia | done].
Qed.

Lemma js_insert_alike a x l :
  List.filter (alike a) (js_insert cmp x l) = List.filter (alike a) (x :: l).
Proof.
  induction l as [|y l IH]; [done|]. cbn [js_insert].
  destruct (Z.leb_spec (cmp x y) 0) as [Hle|Hgt]; [done|].
  cbn [List.filter] in *. rewrite IH.
  destruct (Z.eqb_spec (cmp a x) 0) as [Hx|], (Z.eqb_spec (cmp a y) 0) as [Hy|];
    try done.
  pose proof (cmp_alike a x y Hx Hy). lia.
Qed.

Lemma js_sort_contract : sort_contract cmp (js_sort cmp).
Proof.
  intros l. split; [apply js_sort_perm|]. split.
  - induction l as [|x l IH]; cbn [js_sort]; [constructor|].
    by apply js_insert_before.
  - intros a. induction l as [|x l IH]; [done|]. cbn [js_sort].
    rewrite js_insert_alike. cbn [List.filter]. by rewrite IH.
Qed.

(** *** The sort from left to right keeps the contract *)

Lemma ltr_insert_perm x l : ltr_insert cmp x l ≡ₚ x :: l.
Proof.
  induction l as [|y l IH]; [done|]. cbn [ltr_insert].
  destruct (cmp y x <=? 0); [|done]. rewrite IH. apply Permutation_swap.
Qed.

Lemma ltr_insert_before x l :
  StronglySorted before l → StronglySorted before (ltr_insert cmp x l).
Proof.
  induction l as [|y l IH]; intros Hs; cbn [ltr_insert].
  - repeat constructor.
  - apply StronglySorted_inv in Hs as [Hl Hy].
    destruct (Z.leb_spec (cmp y x) 0) as [Hle|Hgt].
    + constructor; [by apply IH|].
      rewrite ltr_insert_perm. by constructor.
    + assert (cmp x y ≤ 0) as Hxy by (destruct (cmp_total x y); [done | lia]).
      constructor; [by constructor|]. constructor; [done|].
      eapply Forall_impl; [exact Hy|]. cbn. intros z Hz. by eapply cmp_trans.
Qed.

Lemma filter_none (P : A → bool) l :
  Forall (λ x, P x = false) l → List.filter P l = [].
Proof.
  induction 1 as [|x l Hx _ IH]; [done|]. cbn [List.filter]. by rewrite Hx.
Qed.

Lemma ltr_insert_alike a x l :
  StronglySorted before l →
  List.filter (alike a) (ltr_insert cmp x l) = List.filter (alike a) (l ++ [x]).
Proof.
  induction l as [|y l IH]; intros Hs; [done|]. cbn [ltr_insert].
  apply StronglySorted_inv in Hs as [Hl Hy].
  destruct (Z.leb_spec (cmp y x) 0) as [Hle|Hgt].
  - cbn [app List.filter]. by rewrite IH.
  - rewrite List.filter_app. cbn [List.filter].
    destruct (Z.eqb_spec (cmp a x) 0) as [Hx|Hx]; [|by rewrite app_nil_r].
    assert (Forall (λ z, alike a z = false) (y :: l)) as Hnone.
    { assert (Forall (before y) (y :: l)) as Hy'.
      { constructor; [|done]. cbn. by rewrite cmp_refl. }
      eapply Forall_impl; [exact Hy'|]. cbn. intros z Hyz.
      apply Z.eqb_neq. intros Hz.
      pose proof (cmp_alike a z x Hz Hx) as Hzx.
      pose proof (cmp_trans y z x Hyz Hzx). lia. }
    pose proof (filter_none _ _ Hnone) as Hnil. cbn [List.filter] in Hnil.
    by rewrite Hnil.
Qed.

Lemma ltr_sort_snoc l x : ltr_sort cmp (l ++ [x]) = ltr_insert cmp x (ltr_sort cmp l).
Proof. unfold ltr_sort. by rewrite foldl_app. Qed.

Lemma ltr_sort_contract : sort_contract cmp (ltr_sort cmp).
Proof.
  assert (∀ l, ltr_sort cmp l ≡ₚ l ∧ StronglySorted before (ltr_sort cmp l)
               ∧ ∀ a, List.filter (alike a) (ltr_sort cmp l)
                      = List.filter (alike a) l) as Hall; [|exact Hall].
  induction l as [|x l (Hperm & Hsorted & Hstable)] using rev_ind.
  - split; [done|]. split; [constructor | done].
  - rewrite ltr_sort_snoc. split; [|split].
    + by rewrite ltr_insert_perm, Hperm, Permutation_cons_append.
    + by apply ltr_insert_before.
    + intros a. rewrite ltr_insert_alike by done.
      by rewrite !List.filter_app, Hstable.
Qed.

(** *** The contract leaves no choice *)

Lemma stable_sorted_unique l1 l2 :
  l1 ≡ₚ l2 →
  StronglySorted before l1 → StronglySorted before l2 →
  (∀ a, List.filter (alike a) l1 = List.filter (alike a) l2) →
  l1 = l2.
Proof.
  revert l2. induction l1 as [|x l1 IH]; intros l2 Hperm Hs1 Hs2 Hst.
  - by apply Permutation_nil_l in Hperm.
  - destruct l2 as [|y l2]; [by apply Permutation_nil_r in Hperm|].
    apply StronglySorted_inv in Hs1 as [Hs1 Hx].
    apply StronglySorted_inv in Hs2 as [Hs2 Hy].
    assert (cmp x y ≤ 0) as Hxy.
    { assert (y ∈ x :: l1) as Hin by (rewrite Hperm; by left).
      apply elem_of_cons in Hin as [->|Hin]; [by rewrite cmp_refl|].
      by apply (proj1 (Forall_forall _ _) Hx). }
    assert (cmp y x ≤ 0) as Hyx.
    { assert (x ∈ y :: l2) as Hin by (rewrite <- Hperm; by left).
      apply elem_of_cons in Hin as [->|Hin]; [by rewrite cmp_refl|].
      by apply (proj1 (Forall_forall _ _) Hy). }
    assert (x = y) as <-.
    { pose proof (Hst x) as Hhead. cbn [List.filter] in Hhead.
      rewrite cmp_refl, (cmp_both x y Hxy Hyx) in Hhead. cbn in Hhead.
      by injection Hhead. }
    f_equal. apply IH; [by eapply Permutation_cons_inv | done | done |].
    intros a. specialize (Hst a). cbn [List.filter] in Hst.
    destruct (alike a x); [by injection Hst | done].
Qed.

Lemma sort_contract_unique (sort1 sort2 : list A → list A) :
  sort_contract cmp sort1 → sort_contract cmp sort2 → ∀ l, sort1 l = sort2 l.
Proof.
  intros H1 H2 l.
  destruct (H1 l) as (Hp1 & Hs1 & Hst1), (H2 l) as (Hp2 & Hs2 & Hst2).
  apply stable_sorted_unique; [by rewrite Hp1, Hp2 | done | done |].
  intros a. by rewrite Hst1, Hst2.
Qed.
End stable_sorting.

Lemma js_sort_conforming : conforming (@js_sort).
Proof. intros A cmp Hc. by apply js_sort_contract. Qed.

Lemma ltr_sort_conforming : conforming (@ltr_sort).
Proof. intros A cmp Hc. by apply ltr_sort_contract. Qed.

Lemma compareMembers_consistent : consistent compareMembers.
Proof. unfold consistent, compareMembers. repeat split; intros; lia. Qed.

Lemma compareNames_consistent localeCompare :
  consistent localeCompare → consistent (compareNames localeCompare).
Proof.
  intros (H1 & H2 & H3). unfold compareNames. repeat split.
  - intros a b. apply H1.
  - intros a b. apply H2.
  - intros a b c. apply H3.
Qed.

Lemma lengthCompare_consistent : consistent lengthCompare.
Proof. unfold consistent, lengthCompare. repeat split; intros; lia. Qed.

(** The generator of the model is the run under the insertion sort. *)
Lemma bookOfRun_js_sort localeCompare today people families familyName :
  bookOfRun (@js_sort) localeCompare today people families familyName
  = generateBookData localeCompare today people families familyName.
Proof. reflexivity. Qed.

Lemma bookOfRun_engine sort1 sort2 localeCompare date1 date2
    people families familyName :
  consistent localeCompare → conforming sort1 → conforming sort2 →
  BookData.chapters
    (bookOfRun sort1 localeCompare date1 people families familyName)
  = BookData.chapters
      (bookOfRun sort2 localeCompare date2 people families familyName)
  ∧ BookData.nameIndex
      (bookOfRun sort1 localeCompare date1 people families familyName)
    = BookData.nameIndex
        (bookOfRun sort2 localeCompare date2 people families familyName).
Proof.
  intros Hlc Hsort1 Hsort2.
  cbn [bookOfRun BookData.chapters BookData.nameIndex]. split.
  - unfold buildChapters_of_run.
    induction (Z.of_nat <$> seq 0 (S (Z.to_nat (maxGen (generations people families)))))
      as [|g gens IH]; [done|].
    rewrite !bind_cons, IH. f_equal.
    unfold chapter_round_of_run, chapterMembers_of_run.
    by rewrite (sort_contract_unique compareMembers compareMembers_consistent
                  (sort1 _ compareMembers) (sort2 _ compareMembers)
                  (Hsort1 _ _ compareMembers_consistent)
                  (Hsort2 _ _ compareMembers_consistent)).
  - unfold buildNameIndex_of_run.
    apply (sort_contract_unique (compareNames localeCompare));
      [by apply compareNames_consistent
      | by apply Hsort1, compareNames_consistent
      | by apply Hsort2, compareNames_consistent].
Qed.

(** C7, amended (two runs on the same input): take two runs of the generator
    on the same people, unions and family label, each with the date it reads
    and with the sort routine of its engine, of which only the contract of
    the language is known, and let the collation be consistent.  The two
    books agree in every field except [exportDate], which holds the date of
    the run, so they are the same when the runs fall on the same date; and
    each is the book of the model, which sorts by insertion. *)
Theorem C7_runs_agree_except_export_date
    (sort1 sort2 : sort_routine) (localeCompare : string → string → Z)
    date1 date2 people families familyName :
  consistent localeCompare →
  conforming sort1 →
  conforming sort2 →
  let book1 := bookOfRun sort1 localeCompare date1 people families familyName in
  let book2 := bookOfRun sort2 localeCompare date2 people families familyName in
  BookData.exportDate book1 = date1
  ∧ BookData.exportDate book2 = date2
  ∧ book2 = BookData.mk (BookData.familyName book1) date2
                        (BookData.totalGenerations book1)
                        (BookData.totalMembers book1)
                        (BookData.totalPatrilineal book1)
                        (BookData.chapters book1)
                        (BookData.nameIndex book1)
  ∧ book1 = generateBookData localeCompare date1 people families familyName
  ∧ book2 = generateBookData localeCompare date2 people families familyName.
Proof.
  intros Hlc Hsort1 Hsort2 book1 book2.
  assert (∀ sort date sort' date',
            conforming sort → conforming sort' →
            bookOfRun sort' localeCompare date' people families familyName
            = BookData.mk
                (BookData.familyName
                   (bookOfRun sort localeCompare date people families familyName))
                date'
                (BookData.totalGenerations
                   (bookOfRun sort localeCompare date people families familyName))
                (BookData.totalMembers
                   (bookOfRun sort localeCompare date people families familyName))
                (BookData.totalPatrilineal
                   (bookOfRun sort localeCompare date people families familyName))
                (BookData.chapters
                   (bookOfRun sort localeCompare date people families familyName))
                (BookData.nameIndex
                   (bookOfRun sort localeCompare date people families familyName)))
    as Hruns.
  { intros sort date sort' date' Hsort Hsort'.
    destruct (bookOfRun_engine sort sort' localeCompare date date'
                people families familyName Hlc Hsort Hsort') as [-> ->].
    reflexivity. }
  subst book1 book2.
  split; [reflexivity|]. split; [reflexivity|]. split; [by apply Hruns|].
  split.
  - rewrite <- bookOfRun_js_sort.
    rewrite (Hruns (@js_sort) date1 sort1 date1 js_sort_conforming Hsort1).
    reflexivity.
  - rewrite <- bookOfRun_js_sort.
    rewrite (Hruns (@js_sort) date2 sort2 date2 js_sort_conforming Hsort2).
    reflexivity.
Qed.

Lemma C7_runs_agree_except_export_date_witness :
  let book1 := bookOfRun (@js_sort) lengthCompare aDate
                         TwoParentUnions.people TwoParentUnions.families None in
  let book2 := bookOfRun (@ltr_sort) lengthCompare anotherDate
                         TwoParentUnions.people TwoParentUnions.families None in
  BookData.exportDate book1 = aDate
  ∧ BookData.exportDate book2 = anotherDate
  ∧ book2 = BookData.mk (BookData.familyName book1) anotherDate
                        (BookData.totalGenerations book1)
                        (BookData.totalMembers book1)
                        (BookData.totalPatrilineal book1)
                        (BookData.chapters book1)
                        (BookData.nameIndex book1)
  ∧ book1 = generateBookData lengthCompare aDate
                             TwoParentUnions.people TwoParentUnions.families None
  ∧ book2 = generateBookData lengthCompare anotherDate
                             TwoParentUnions.people TwoParentUnions.families None.
Proof.
  apply (C7_runs_agree_except_export_date (@js_sort) (@ltr_sort) lengthCompare
           aDate anotherDate TwoParentUnions.people TwoParentUnions.families None).
  - apply lengthCompare_consistent.
  - apply js_sort_conforming.
  - apply ltr_sort_conforming.
Defined.

(** The two routines differ on a comparator that is not consistent (here
    1 is before 2, 2 before 3 and 3 before 1), so the agreement of the runs
    rests on the consistency of the comparators that the generator sorts
    with. *)
Example sort_routines_differ :
  let cmp (a b : Z) := if a =? b then 0
                       else if (b - a) `mod` 3 =? 1 then -1 else 1 in
  js_sort cmp [1; 2; 3] = [1; 2; 3] ∧ ltr_sort cmp [1; 2; 3] = [3; 1; 2].
Proof. by vm_compute. Qed.
